(** * TransformMapForCpu: tiling of linalg.map for CPU

    A shallow embedding of
    [gml_st/transforms/cpu_tiling/transform_map_for_cpu.cc]:
    the rewrite pattern [TileMapPattern] (with its helper [findRootMap] and
    its tile-size computation function) and the pass driver
    [TransformMapForCpuPass::runOnOperation].

    The IR of the function being processed is a table of operations indexed
    by operation identifiers (the [Operation*] of the source).  Rewriting is
    in-place mutation of that table, modelled by explicit state passing. *)

From stdpp Require Import gmap strings list fin_maps.
From Stdlib Require Import ZArith Lia.

Open Scope Z_scope.
Open Scope nat_scope.

(** ** The IR: operations, attributes, use lists *)

Module IR.

(** An [Operation*]: the index of the operation in the table. *)
Abbreviation OpId := nat.

(** An SSA [Value]: every operation the pass looks at defines its results
    itself, so a value is identified with its defining operation. *)
Abbreviation Value := OpId.

Inductive Attribute :=
| UnitAttr
| IntegerAttr (z : Z)
| StringAttr (s : string).

(** The operation classes the source distinguishes with [isa], [dyn_cast]
    and [cast].  A [linalg.map] carries its number of loops
    ([getNumLoops]), an [arith.constant] of index type its value. *)
Inductive OpKind :=
| MapOp (numLoops : nat)
| BroadcastOp
| FillOp
| CollapseShapeOp
| ExpandShapeOp
| ForallOp
| ForOp
| ConstantIndexOp (value : Z)
| FuncOp
| OtherOp (name : string).

Record Operation := mkOp {
  kind : OpKind;
  operands : list Value;
  attrs : gmap string Attribute;
  parentOp : option OpId
}.

(** The operations nested in the function the pass runs on. *)
Abbreviation IR := (list Operation).

Definition isMapKind (k : OpKind) : bool :=
  match k with MapOp _ => true | _ => false end.

Definition isLoopKind (k : OpKind) : bool :=
  match k with ForallOp | ForOp => true | _ => false end.

(** [isa<linalg::MapOp>(op)] / [dyn_cast<linalg::MapOp>(op)] succeeds. *)
Definition isMapOp (g : IR) (op : OpId) : bool :=
  match g !! op with
  | Some o => isMapKind (kind o)
  | None => false
  end.

(** [cast<linalg::MapOp>(op).getNumLoops()]. *)
Definition getNumLoops (g : IR) (op : OpId) : nat :=
  match g !! op with
  | Some {| kind := MapOp n |} => n
  | _ => 0
  end.

(** The uses that operation [u] makes of the results of [v]: one entry per
    operand, so an operation that takes a value twice is listed twice. *)
Definition usesIn (v : OpId) (u : OpId) (o : Operation) : list OpId :=
  (λ _, u) <$> filter (λ x, x = v) (operands o).

(** [op->getUsers()], as a vector. *)
Definition getUsers (g : IR) (v : OpId) : list OpId :=
  mjoin (imap (usesIn v) g).

(** A topological numbering of the data-flow graph: every operand is
    numbered below its user (SSA dominance), and the numbers of the
    operations of [g] stay below the size of [g]. *)
Definition topological (g : IR) (rank : OpId → nat) : Prop :=
  ∀ u o, g !! u = Some o →
    rank u < length g ∧ Forall (λ v, rank v < rank u) (operands o).

Definition topologicalb (g : IR) (rank : OpId → nat) : bool :=
  forallb (λ p : nat * Operation,
             (rank p.1 <? length g)%nat
             && forallb (λ v, (rank v <? rank p.1)%nat) (operands p.2))
          (imap (λ u o, (u, o)) g).

End IR.

Import IR.

(** ** Labels

    [hasLabel], [setLabel], [removeLabel] and the label names live in
    [gml_st/transforms/transforms.h]. *)

(** Modelled from the spec: the label [transformed] ("rewrite already
    applied"); the value of the constant [kTransformedLabel] is declared in
    [gml_st/transforms/transforms.h]. *)
Definition kTransformedLabel : string := "transformed".

(** Modelled from the spec: the label [perfectly-tiled-loop] ("identifies the
    main tiled loop for downstream passes"); the value of the constant
    [kPerfectlyTiledLoopLabel] is declared in
    [gml_st/transforms/transforms.h]. *)
Definition kPerfectlyTiledLoopLabel : string := "perfectly-tiled-loop".

(** Modelled from the spec: [hasLabel(op, name)] of
    [gml_st/transforms/transforms.h], "a transient marker attached to a
    node": the node has an attribute of that name. *)
Definition hasLabel (g : IR) (op : OpId) (name : string) : bool :=
  match g !! op with
  | Some o => bool_decide (is_Some (attrs o !! name))
  | None => false
  end.

Definition setAttr (name : string) (a : Attribute) (o : Operation) : Operation :=
  {| kind := kind o; operands := operands o;
     attrs := <[name := a]> (attrs o); parentOp := parentOp o |}.

Definition removeAttr (name : string) (o : Operation) : Operation :=
  {| kind := kind o; operands := operands o;
     attrs := delete name (attrs o); parentOp := parentOp o |}.

(** Modelled from the spec: [setLabel(op, name)] of
    [gml_st/transforms/transforms.h]: attaches the marker as a unit
    attribute of the node; the other nodes are untouched. *)
Definition setLabel (op : OpId) (name : string) (g : IR) : IR :=
  alter (setAttr name UnitAttr) op g.

(** Modelled from the spec: [removeLabel(op, name)] of
    [gml_st/transforms/transforms.h]: drops the marker from the node. *)
Definition removeLabel (op : OpId) (name : string) (g : IR) : IR :=
  alter (removeAttr name) op g.

(** ** The root finder *)

(** The [while] loop of [findRootMap].  [fuel] bounds the number of
    iterations; [None] is a walk that has not stopped within the bound. *)
Fixpoint findRootMap_loop (fuel : nat) (g : IR) (fuseFilterFn : OpId → bool)
    (curOp rootMap : OpId) : option OpId :=
  match fuel with
  | O => None
  | S fuel' =>
      if fuseFilterFn curOp then
        match getUsers g curOp with
        | [u] =>
            findRootMap_loop fuel' g fuseFilterFn u
              (if isMapOp g u then u else rootMap)
        | _ => Some rootMap
        end
      else Some rootMap
  end.

(** [TileMapPattern::findRootMap].  A walk that visits more operations than
    the function holds has entered a cycle of the use lists and never
    stops. *)
Definition findRootMap (g : IR) (fuseFilterFn : OpId → bool) (op : OpId)
    : option OpId :=
  findRootMap_loop (S (length g)) g fuseFilterFn op op.

(** *** What the walk is, in the words of the contract *)

(** Every node of the chain but the last satisfies the predicate and has the
    next node as its only user. *)
Fixpoint chained (g : IR) (f : OpId → bool) (c : list OpId) : Prop :=
  match c with
  | a :: (b :: _) as t => f a = true ∧ getUsers g a = [b] ∧ chained g f t
  | _ => True
  end.

(** The walk stops at [x]. *)
Definition stopsAt (g : IR) (f : OpId → bool) (x : OpId) : Prop :=
  f x = false ∨ length (getUsers g x) ≠ 1.

(** The last map node among the nodes the walk landed on, [start] if it
    landed on none. *)
Definition lastSeenMap (g : IR) (start : OpId) (landed : list OpId) : OpId :=
  default start (last (filter (λ x, isMapOp g x = true) landed)).

(** ** The rewriter: in-place mutation as state passing *)

(** A computation of the rewriter: it reads and mutates the IR and returns a
    value; [None] is a computation that does not return. *)
Definition M (A : Type) : Type := IR → option (A * IR).

Definition ret {A} (a : A) : M A := λ g, Some (a, g).

Definition bind {A B} (m : M A) (k : A → M B) : M B :=
  λ g, match m g with
       | Some (a, g') => k a g'
       | None => None
       end.

Definition gets {A} (f : IR → A) : M A := λ g, Some (f g, g).

Definition modify (f : IR → IR) : M unit := λ g, Some (tt, f g).

Definition diverge {A} : M A := λ _, None.

Declare Scope rewriter_scope.
Delimit Scope rewriter_scope with rw.
Notation "'let*' x ':=' c1 'in' c2" := (bind c1 (λ x, c2))
  (at level 10, x binder, c1 at level 100, c2 at level 200) : rewriter_scope.
Notation "c1 ';;' c2" := (bind c1 (λ _, c2))
  (at level 100, c2 at level 200, right associativity) : rewriter_scope.
Open Scope rewriter_scope.

Inductive LogicalResult := success | failure.

Definition failed (r : LogicalResult) : bool :=
  match r with failure => true | success => false end.

Inductive FailureOr (A : Type) :=
| Succeeded (a : A)
| Failed.
Arguments Succeeded {A} a.
Arguments Failed {A}.

(** [rewriter.notifyMatchFailure(op, msg)]: a diagnostic for listeners; the
    IR is not touched. *)
Definition notifyMatchFailure (op : OpId) (msg : string) : M LogicalResult :=
  ret failure.

(** An [OpBuilder]: where the operations it creates are inserted. *)
Record OpBuilder := { insertionParent : option OpId }.

(** [b.create<Op>(loc, ...)]: a new operation, returned by its handle. *)
Definition create (b : OpBuilder) (k : OpKind) (args : list Value) : M Value :=
  λ g, Some (length g, g ++ [mkOp k args ∅ (insertionParent b)]).

(** The result of tiling: [tiledLoop->loop] is the loop the pattern peels and
    labels. *)
Record GmlStTilingResult := {
  tiledOps : list OpId;
  loop : OpId
}.

Record GmlStPeelingResult := {
  mainLoops : list OpId;
  tailLoops : list OpId
}.

Record SCFTilingOptions := {
  tileSizeComputationFunction : OpBuilder → OpId → M (list Value)
}.

(** An [OpRewritePattern<OpTy>]: the operations it is tried on, and its
    [matchAndRewrite]. *)
Record RewritePattern := {
  rootKind : OpKind → bool;
  rewrite_ : OpId → M LogicalResult
}.

(** The collaborators of the pattern and of the pass: the reshape test of
    [gml_st/utils/tensor_utils.h], the tiling-and-fusion driver of
    [gml_st/transforms/fusion/fusion.h], the peeling driver of
    [gml_st/transforms/peeling/peeling.h], the scalarization driver and the
    auxiliary patterns of [gml_st/transforms/transforms.h], and MLIR's greedy
    pattern rewrite driver. *)
Class Collaborators := {
  isDegenerateReshapeOp : IR → OpId → bool;
  tileUsingSCFForallOpAndFuseGreedily :
    OpId → SCFTilingOptions → (IR → OpId → bool) → M (FailureOr GmlStTilingResult);
  peelAllLoops : OpId → M GmlStPeelingResult;
  tilePeeledOpsToScalars :
    GmlStPeelingResult → (IR → OpId → bool) → M LogicalResult;
  populateCollapseForallOpDimensionsPattern : list RewritePattern;
  applyPatternsAndFoldGreedily : list RewritePattern → M LogicalResult
}.

(** ** TileMapPattern *)

(** The value of the index constant that defines [v], if [v] is one. *)
Definition constantValue (g : IR) (v : Value) : option Z :=
  match g !! v with
  | Some {| kind := ConstantIndexOp z |} => Some z
  | _ => None
  end.

(** The lambda given to [opts.setTileSizeComputationFunction].  The
    [int64_t] tile size is handed to the constant unchanged. *)
Definition tileSizeComputation (innerDimTileSize : Z) (b : OpBuilder)
    (op : OpId) : M (list Value) :=
  let* numLoops := gets (λ g, getNumLoops g op) in
  let* one := create b (ConstantIndexOp 1) [] in
  let tiles := replicate numLoops one in
  match tiles with
  | [] => ret tiles
  | _ :: _ =>
      let* t := create b (ConstantIndexOp innerDimTileSize) [] in
      ret (<[pred (length tiles) := t]> tiles)
  end.

(** [opts] once [setTileSizeComputationFunction] has been called on it. *)
Definition tilingOptions (innerDimTileSize : Z) : SCFTilingOptions :=
  {| tileSizeComputationFunction := tileSizeComputation innerDimTileSize |}.

(** [isa<scf::ForallOp, scf::ForOp>(op->getParentOp())]. *)
Definition parentIsLoop (g : IR) (op : OpId) : bool :=
  match g !! op with
  | Some o =>
      match parentOp o with
      | Some p =>
          match g !! p with
          | Some po => isLoopKind (kind po)
          | None => false
          end
      | None => false
      end
  | None => false
  end.

Section Pattern.
Context {C : Collaborators}.

(** The lambda [fuseFilterFn]. *)
Definition fuseFilterFn (g : IR) (op : OpId) : bool :=
  match g !! op with
  | Some o =>
      match kind o with
      | CollapseShapeOp => isDegenerateReshapeOp g op
      | ExpandShapeOp => isDegenerateReshapeOp g op
      | BroadcastOp | FillOp | MapOp _ => true
      | _ => false
      end
  | None => false
  end.

(** The part of [matchAndRewrite] after the root has passed the label check:
    tile and fuse, peel, label the loop, scalarize the peeled loops. *)
Definition tileRoot (innerDimTileSize : Z) (root : OpId) : M LogicalResult :=
  let opts := tilingOptions innerDimTileSize in
  let* tiledLoop := tileUsingSCFForallOpAndFuseGreedily root opts fuseFilterFn in
  match tiledLoop with
  | Failed => ret failure
  | Succeeded tl =>
      let* peelingResult := peelAllLoops (loop tl) in
      modify (setLabel (loop tl) kPerfectlyTiledLoopLabel);;
      tilePeeledOpsToScalars peelingResult fuseFilterFn
  end.

(** [TileMapPattern::matchAndRewrite]. *)
Definition matchAndRewrite (innerDimTileSize : Z) (op : OpId)
    : M LogicalResult :=
  λ g,
    if hasLabel g op kTransformedLabel then ret failure g
    else if parentIsLoop g op then
      notifyMatchFailure op "has already been tiled by another pass." g
    else
      match findRootMap g (fuseFilterFn g) op with
      | None => diverge g
      | Some root =>
          if hasLabel g root kTransformedLabel then ret failure g
          else tileRoot innerDimTileSize root g
      end.

Definition TileMapPattern (innerDimTileSize : Z) : RewritePattern :=
  {| rootKind := isMapKind; rewrite_ := matchAndRewrite innerDimTileSize |}.

(** ** The pass *)

Inductive PassResult := passSucceeded | passFailed.

(** [f.walk([](linalg::MapOp op) { ... })]: the callback runs on every
    [linalg.map] nested in the function.  The callback of the pass touches
    the attributes of the visited operation only, so the order of the visit
    does not show. *)
Definition walkMapOps (callback : OpId → IR → IR) (g : IR) : IR :=
  foldl (λ g' op, if isMapOp g' op then callback op g' else g')
        g (seq 0 (length g)).

(** [TransformMapForCpuPass::runOnOperation]; [signalPassFailure] is the
    result [passFailed]. *)
Definition runOnOperation (tileSize : Z) : M PassResult :=
  let patterns :=
    TileMapPattern tileSize :: populateCollapseForallOpDimensionsPattern in
  let* converged := applyPatternsAndFoldGreedily patterns in
  if failed converged then ret passFailed
  else
    modify (walkMapOps (λ op, removeLabel op kTransformedLabel));;
    ret passSucceeded.

End Pattern.

(** ** Reference collaborators

    The drivers are not part of this file.  The instances below follow the
    contracts of the design document and serve to run the pattern and the
    pass on concrete functions. *)

(** Modelled from the spec: the generic rewriter
    [applyToFixedPoint(graph, patternSet)], "repeatedly scan for applicable
    rewrites until none apply or a fixed iteration bound is hit (bound
    violation is treated as pass failure)"; MLIR's
    [applyPatternsAndFoldGreedily] is not part of this file. *)
Fixpoint tryPatterns (patterns : list RewritePattern) (op : OpId) : M bool :=
  match patterns with
  | [] => ret false
  | p :: ps =>
      let* applies :=
        gets (λ g, match g !! op with
                   | Some o => rootKind p (kind o)
                   | None => false
                   end) in
      if applies then
        let* r := rewrite_ p op in
        match r with
        | success => ret true
        | failure => tryPatterns ps op
        end
      else tryPatterns ps op
  end.

Fixpoint sweep (patterns : list RewritePattern) (worklist : list OpId)
    : M bool :=
  match worklist with
  | [] => ret false
  | op :: rest =>
      let* changed := tryPatterns patterns op in
      let* changed' := sweep patterns rest in
      ret (changed || changed')
  end.

Fixpoint greedyLoop (iterations : nat) (patterns : list RewritePattern)
    : M LogicalResult :=
  match iterations with
  | O => ret failure
  | S n =>
      let* worklist := gets (λ g, seq 0 (length g)) in
      let* changed := sweep patterns worklist in
      if changed then greedyLoop n patterns else ret success
  end.

(** The iteration bound of the greedy driver. *)
Definition maxIterations : nat := 10.

Definition reparent (op p : OpId) (g : IR) : IR :=
  alter (λ o, mkOp (kind o) (operands o) (attrs o) (Some p)) op g.

(** Moves into loop [l] the producers of [op] that satisfy the predicate and
    have [op] as their only user, and theirs in turn. *)
Fixpoint fuseProducers (fuel : nat) (filter : IR → OpId → bool) (l op : OpId)
    (g : IR) : IR :=
  match fuel with
  | O => g
  | S n =>
      match g !! op with
      | Some o =>
          foldl (λ g' v,
                   if filter g' v && bool_decide (getUsers g' v = [op])
                   then fuseProducers n filter l v (reparent v l g')
                   else g')
                g (operands o)
      | None => g
      end
  end.

(** Modelled from the spec: the tiling-and-fusion driver
    [tile(root, tileSizePolicy, fusibilityPredicate) -> TiledLoop | failure]
    of [gml_st/transforms/fusion/fusion.h], which "produces a tiled loop nest
    with producers fused in, or fails".  It asks the policy for the tile
    sizes, builds the loop next to the root, moves the root and its fusible
    producers into it and marks the root [transformed]; a root without loops
    is not tileable, and then nothing is mutated. *)
Definition refTile (root : OpId) (opts : SCFTilingOptions)
    (filter : IR → OpId → bool) : M (FailureOr GmlStTilingResult) :=
  let* o := gets (λ g, g !! root) in
  match o with
  | Some (mkOp (MapOp (S _)) _ _ p) =>
      let b := {| insertionParent := p |} in
      let* tiles := tileSizeComputationFunction opts b root in
      let* l := create b ForallOp tiles in
      modify (reparent root l);;
      modify (λ g, fuseProducers (length g) filter l root g);;
      modify (setLabel root kTransformedLabel);;
      ret (Succeeded {| tiledOps := [root]; loop := l |})
  | _ => ret Failed
  end.

(** Modelled from the spec: the peeling driver
    [peel(loop) -> {mainLoop, remainderRegions}] of
    [gml_st/transforms/peeling/peeling.h]: the loop stays as the main loop
    and one remainder loop is built next to it. *)
Definition refPeel (l : OpId) : M GmlStPeelingResult :=
  let* o := gets (λ g, g !! l) in
  match o with
  | Some lo =>
      let* tail :=
        create {| insertionParent := parentOp lo |} ForallOp (operands lo) in
      ret {| mainLoops := [l]; tailLoops := [tail] |}
  | None => ret {| mainLoops := []; tailLoops := [] |}
  end.

(** Modelled from the spec: the scalarization driver of
    [gml_st/transforms/transforms.h], "for every operation inside the peeled
    remainder regions that still matches the fusibility predicate, re-tile it
    to unit tile size"; the re-tiled operations are marked [transformed].  A
    remainder loop that is not in the function is a failure. *)
Definition scalarizeIn (filter : IR → OpId → bool) (tail : OpId) (g : IR) : IR :=
  foldl (λ g' op,
           match g' !! op with
           | Some o =>
               if bool_decide (parentOp o = Some tail) && filter g' op
               then setLabel op kTransformedLabel g' else g'
           | None => g'
           end)
        g (seq 0 (length g)).

Fixpoint refScalarizeLoops (tails : list OpId) (filter : IR → OpId → bool)
    : M LogicalResult :=
  match tails with
  | [] => ret success
  | t :: rest =>
      let* live := gets (λ g, bool_decide (is_Some (g !! t))) in
      if live then
        modify (scalarizeIn filter t);;
        refScalarizeLoops rest filter
      else ret failure
  end.

Definition refScalarize (pr : GmlStPeelingResult) (filter : IR → OpId → bool)
    : M LogicalResult :=
  refScalarizeLoops (tailLoops pr) filter.

(** The reference collaborators.  Reshapes count as degenerate, and there is
    no auxiliary pattern. *)
Definition refCollaborators : Collaborators :=
  {| isDegenerateReshapeOp := λ _ _, true;
     tileUsingSCFForallOpAndFuseGreedily := refTile;
     peelAllLoops := refPeel;
     tilePeeledOpsToScalars := refScalarize;
     populateCollapseForallOpDimensionsPattern := [];
     applyPatternsAndFoldGreedily := greedyLoop maxIterations |}.

(** The reference collaborators with a scalarization driver that gives up. *)
Definition givingUpScalarization : Collaborators :=
  {| isDegenerateReshapeOp := λ _ _, true;
     tileUsingSCFForallOpAndFuseGreedily := refTile;
     peelAllLoops := refPeel;
     tilePeeledOpsToScalars := λ _ _, ret failure;
     populateCollapseForallOpDimensionsPattern := [];
     applyPatternsAndFoldGreedily := greedyLoop maxIterations |}.

(** A tiling driver whose rewrite re-introduces its own match condition: next
    to the loop it leaves a fresh, unmarked copy of the root. *)
Definition regrowingTile (root : OpId) (opts : SCFTilingOptions)
    (filter : IR → OpId → bool) : M (FailureOr GmlStTilingResult) :=
  let* o := gets (λ g, g !! root) in
  match o with
  | Some (mkOp (MapOp n) args _ p) =>
      let* r := refTile root opts filter in
      let* _ := create {| insertionParent := p |} (MapOp n) args in
      ret r
  | _ => ret Failed
  end.

Definition regrowingCollaborators : Collaborators :=
  {| isDegenerateReshapeOp := λ _ _, true;
     tileUsingSCFForallOpAndFuseGreedily := regrowingTile;
     peelAllLoops := refPeel;
     tilePeeledOpsToScalars := refScalarize;
     populateCollapseForallOpDimensionsPattern := [];
     applyPatternsAndFoldGreedily := greedyLoop maxIterations |}.

(** ** Sample functions *)

Definition op_ (k : OpKind) (args : list Value) (p : option OpId) : Operation :=
  mkOp k args ∅ p.

Definition labelled (name : string) (o : Operation) : Operation :=
  setAttr name UnitAttr o.

(** [func { %1 = fill; %2 = map(%1); %3 = map(%2) }]: scenario B. *)
Definition chainFunc : IR :=
  [ op_ FuncOp [] None;
    op_ FillOp [] (Some 0);
    op_ (MapOp 2) [1] (Some 0);
    op_ (MapOp 2) [2] (Some 0) ].

(** [func { %1 = map; %2 = map(%1); %3 = map(%1) }]: scenario C. *)
Definition fanOutFunc : IR :=
  [ op_ FuncOp [] None;
    op_ (MapOp 1) [] (Some 0);
    op_ (MapOp 1) [1] (Some 0);
    op_ (MapOp 1) [1] (Some 0) ].

(** [func { %1 = map; %2 = map(%1, %1) }]: one consumer, two uses. *)
Definition doubleUseFunc : IR :=
  [ op_ FuncOp [] None;
    op_ (MapOp 1) [] (Some 0);
    op_ (MapOp 1) [1; 1] (Some 0) ].

(** [func { %1 = map }], the map of rank 1. *)
Definition singleMapFunc : IR :=
  [ op_ FuncOp [] None; op_ (MapOp 1) [] (Some 0) ].

(** The same, with the map already marked [transformed]. *)
Definition markedMapFunc : IR :=
  [ op_ FuncOp [] None;
    labelled kTransformedLabel (op_ (MapOp 1) [] (Some 0)) ].

(** [func { scf.forall { %2 = map } }]. *)
Definition tiledFunc : IR :=
  [ op_ FuncOp [] None; op_ ForallOp [] (Some 0); op_ (MapOp 1) [] (Some 1) ].

(** [func { scf.forall { scf.if { %3 = map } } }]. *)
Definition guardedFunc : IR :=
  [ op_ FuncOp [] None;
    op_ ForallOp [] (Some 0);
    op_ (OtherOp "scf.if") [] (Some 1);
    op_ (MapOp 1) [] (Some 2) ].

(** [func { scf.forall {transformed} }]: a loop that carries the label. *)
Definition markedLoopFunc : IR :=
  [ op_ FuncOp [] None; labelled kTransformedLabel (op_ ForallOp [] (Some 0)) ].

(** [func { %1 = map; %2 = map(%1) {transformed} }]: a cluster whose root
    has been handled. *)
Definition markedRootFunc : IR :=
  [ op_ FuncOp [] None;
    op_ (MapOp 1) [] (Some 0);
    labelled kTransformedLabel (op_ (MapOp 1) [1] (Some 0)) ].

(** [singleMapFunc] as the reference tiling driver leaves it for the tile
    size 8: the two index constants, the loop over them, the map inside the
    loop and marked. *)
Definition tiledSingleMapFunc : IR :=
  [ op_ FuncOp [] None;
    labelled kTransformedLabel (op_ (MapOp 1) [] (Some 4));
    op_ (ConstantIndexOp 1) [] (Some 0);
    op_ (ConstantIndexOp 8) [] (Some 0);
    op_ ForallOp [3] (Some 0) ].

(** The same after the reference peeling driver has added the remainder
    loop. *)
Definition peeledSingleMapFunc : IR :=
  tiledSingleMapFunc ++ [op_ ForallOp [3] (Some 0)].

(** The output of the pass on [singleMapFunc] with the reference
    collaborators: the loop is labelled, the map no longer is. *)
Definition rewrittenSingleMapFunc : IR :=
  removeLabel 1 kTransformedLabel
    (setLabel 4 kPerfectlyTiledLoopLabel peeledSingleMapFunc).

(** Every [linalg.map] of the function sits directly inside an [scf.forall]
    or [scf.for]. *)
Definition allMapsNested (g : IR) : bool :=
  forallb (λ op, implb (isMapOp g op) (parentIsLoop g op)) (seq 0 (length g)).

(** Two functions with the same data flow: operation by operation the same
    kind and the same operands; attributes and nesting may differ. *)
Definition sameDataFlow (g g' : IR) : Prop :=
  Forall2 (λ a b, kind a = kind b ∧ operands a = operands b) g g'.

(** [func { %1 = map; scf.forall { %3 = map(%1) } }]: the only user of the
    first map sits inside a loop. *)
Definition crossRegionFunc : IR :=
  [ op_ FuncOp [] None;
    op_ (MapOp 1) [] (Some 0);
    op_ ForallOp [] (Some 0);
    op_ (MapOp 1) [1] (Some 2) ].

(** [func { %1 = map; %2 = linalg.reduce(%1); %3 = map(%2) }]: the only
    consumer of the first map is not fusible. *)
Definition blockedFunc : IR :=
  [ op_ FuncOp [] None;
    op_ (MapOp 1) [] (Some 0);
    op_ (OtherOp "linalg.reduce") [1] (Some 0);
    op_ (MapOp 1) [2] (Some 0) ].

(** A tiling driver that builds the loop and moves the root into it, and
    leaves all labels alone. *)
Definition unmarkedTile (root : OpId) (opts : SCFTilingOptions)
    (filter : IR → OpId → bool) : M (FailureOr GmlStTilingResult) :=
  let* o := gets (λ g, g !! root) in
  match o with
  | Some (mkOp (MapOp (S _)) _ _ p) =>
      let b := {| insertionParent := p |} in
      let* tiles := tileSizeComputationFunction opts b root in
      let* l := create b ForallOp tiles in
      modify (reparent root l);;
      ret (Succeeded {| tiledOps := [root]; loop := l |})
  | _ => ret Failed
  end.

Definition unmarkedCollaborators : Collaborators :=
  {| isDegenerateReshapeOp := λ _ _, true;
     tileUsingSCFForallOpAndFuseGreedily := unmarkedTile;
     peelAllLoops := refPeel;
     tilePeeledOpsToScalars := λ _ _, ret success;
     populateCollapseForallOpDimensionsPattern := [];
     applyPatternsAndFoldGreedily := greedyLoop maxIterations |}.

(** ** Well-formed functions and clusters *)

(** Every parent pointer refers to an operation of the function. *)
Definition validParents (g : IR) : Prop :=
  ∀ op o p, g !! op = Some o → parentOp o = Some p → p < length g.

Definition validParentsb (g : IR) : bool :=
  forallb (λ o, match parentOp o with
                | Some p => (p <? length g)%nat
                | None => true
                end) g.

(** No [linalg.map] carries the [transformed] label. *)
Definition noMapMarked (g : IR) : Prop :=
  ∀ op, isMapOp g op = true → hasLabel g op kTransformedLabel = false.

Definition noMapMarkedb (g : IR) : bool :=
  forallb (λ op, implb (isMapOp g op) (negb (hasLabel g op kTransformedLabel)))
          (seq 0 (length g)).

(** The operation [o] moved under the parent [p]. *)
Definition reparentOp (p : OpId) (o : Operation) : Operation :=
  mkOp (kind o) (operands o) (attrs o) (Some p).

(** [g'] is [g] with some operations moved under [l] and nothing else
    changed. *)
Definition movedInto (l : OpId) (g g' : IR) : Prop :=
  ∀ i, g' !! i = g !! i ∨ g' !! i = reparentOp l <$> g !! i.

(** Operation [x] sits directly under [l]. *)
Definition nestedIn (l : OpId) (g : IR) (x : OpId) : Prop :=
  ∃ o, g !! x = Some o ∧ parentOp o = Some l.

(** The kinds the filter of the reference collaborators accepts. *)
Definition fusibleKind (k : OpKind) : bool :=
  match k with
  | MapOp _ | BroadcastOp | FillOp | CollapseShapeOp | ExpandShapeOp => true
  | _ => false
  end.

(** The roots the reference tiling driver tiles: maps with at least one
    loop. *)
Definition tileable (g : IR) (r : OpId) : bool :=
  match g !! r with
  | Some (mkOp (MapOp (S _)) _ _ _) => true
  | _ => false
  end.

(** One step of the walk of [findRootMap] under the filter of the reference
    collaborators: [x] is fusible and [y] is its only user. *)
Definition feeds (g : IR) (x y : OpId) : Prop :=
  @fuseFilterFn refCollaborators g x = true ∧ getUsers g x = [y].

(** The walk leads from [x] through [rest] and ends on [r]. *)
Fixpoint path (g : IR) (x : OpId) (rest : list OpId) (r : OpId) : Prop :=
  match rest with
  | [] => x = r
  | y :: rest' => feeds g x y ∧ path g y rest' r
  end.

(** [y] belongs to a cluster that has been tiled: the walk from [y] leads to
    a map marked [transformed]. *)
Definition inCluster (g : IR) (y : OpId) : Prop :=
  ∃ rest r, path g y rest r ∧ isMapOp g r = true
            ∧ hasLabel g r kTransformedLabel = true.

(** Every operation of a tiled cluster sits directly inside a loop. *)
Definition clustersNested (g : IR) : Prop :=
  ∀ y, inCluster g y → parentIsLoop g y = true.

(** [g'] extends [g]: the operations of [g] keep their kind and operands,
    and the operations added are neither maps nor fusible and use added
    operations only. *)
Definition extends (g g' : IR) : Prop :=
  ∃ g0 new,
    g' = g0 ++ new ∧ sameDataFlow g g0
    ∧ Forall (λ o, fusibleKind (kind o) = false
                   ∧ Forall (λ v, length g ≤ v) (operands o)) new.

(** [func { %1 = map }] with a map without loops: nothing to tile. *)
Definition scalarMapFunc : IR :=
  [ op_ FuncOp [] None; op_ (MapOp 0) [] (Some 0) ].

(** What a rewrite of the pattern with the reference collaborators makes of
    [s] when it tiles the root [r]: four operations are added, the last but
    one the loop; the old operations keep their kind and operands, and all
    but [r] their attributes; they keep their parent or move under the loop;
    the root and every operation from which the walk leads to it are under
    the loop. *)
Definition tiledFrom (s : IR) (r : OpId) (s' : IR) : Prop :=
  length s' = length s + 4
  ∧ (∀ i o, s !! i = Some o →
       ∃ o', s' !! i = Some o' ∧ kind o' = kind o ∧ operands o' = operands o
             ∧ (parentOp o' = parentOp o ∨ parentOp o' = Some (length s + 2))
             ∧ (i ≠ r → attrs o' = attrs o))
  ∧ (∀ i o', length s ≤ i → s' !! i = Some o' →
       fusibleKind (kind o') = false
       ∧ Forall (λ v, length s ≤ v) (operands o')
       ∧ ∀ q, parentOp o' = Some q → q < length s')
  ∧ kind <$> s' !! (length s + 2) = Some ForallOp
  ∧ nestedIn (length s + 2) s' r
  ∧ (∀ x rest, path s x rest r → rest ≠ [] → length rest ≤ length s + 3 →
               nestedIn (length s + 2) s' x).

Definition tiledOpsFor (T : Z) (s : IR) (n : nat) (p : option OpId)
    : list Operation :=
  [ mkOp (ConstantIndexOp 1) [] ∅ p;
    mkOp (ConstantIndexOp T) [] ∅ p;
    mkOp ForallOp (replicate n (length s) ++ [S (length s)]) ∅ p ].

(** The final walk of the pass. *)
Abbreviation strip := (walkMapOps (λ op, removeLabel op kTransformedLabel)).

(** [{ %0 = map; %1 = map; %2 = map(%1) }] with the last map under an
    operation that does not exist: an ill-formed function. *)
Definition danglingParentFunc : IR :=
  [ op_ (MapOp 1) [] None;
    op_ (MapOp 1) [] None;
    op_ (MapOp 1) [1] (Some 6) ].

(** * Properties *)

(** ** Use lists *)

Lemma getUsers_elem (g : IR) (v u : OpId) :
  u ∈ getUsers g v → ∃ o, g !! u = Some o ∧ v ∈ operands o.
Proof.
  unfold getUsers. intros Hu.
  apply list_elem_of_join in Hu as (l & Hul & Hl).
  apply elem_of_lookup_imap in Hl as (i & o & -> & Hio).
  unfold usesIn in Hul.
  apply list_elem_of_fmap in Hul as (y & -> & Hy).
  apply list_elem_of_filter in Hy as [-> Hy].
  eauto.
Qed.

Lemma topologicalb_sound (g : IR) (rank : OpId → nat) :
  topologicalb g rank = true → topological g rank.
Proof.
  unfold topologicalb, topological. intros H u o Huo.
  rewrite forallb_forall in H.
  specialize (H (u, o)). simpl in H.
  assert (Hin : In (u, o) (imap (λ u o, (u, o)) g)).
  { apply list_elem_of_In, elem_of_lookup_imap. eauto. }
  apply H in Hin. apply andb_prop in Hin as [H1 H2].
  split.
  - by apply Nat.ltb_lt.
  - apply Forall_forall. intros v Hv.
    rewrite forallb_forall in H2. apply Nat.ltb_lt, H2.
    by apply list_elem_of_In.
Qed.

(** ** The root finder *)

Lemma default_last_cons {A} (a b : A) (l : list A) :
  default a (last (a :: b :: l)) = default b (last (b :: l)).
Proof.
  rewrite last_cons_cons.
  destruct (last (b :: l)) as [x|] eqn:Hl; [done|].
  by apply last_None in Hl.
Qed.

Lemma lastSeenMap_cons (g : IR) (root u : OpId) (rest : list OpId) :
  lastSeenMap g (if isMapOp g u then u else root) rest
  = lastSeenMap g root (u :: rest).
Proof.
  unfold lastSeenMap. rewrite filter_cons.
  destruct (isMapOp g u) eqn:Hu.
  - rewrite decide_True by done.
    rewrite last_cons. by destruct (last _).
  - rewrite decide_False by (by intros ?). done.
Qed.

Lemma lastSeenMap_isMap (g : IR) (root : OpId) (landed : list OpId) :
  isMapOp g root = true → isMapOp g (lastSeenMap g root landed) = true.
Proof.
  intros Hroot. unfold lastSeenMap.
  destruct (last _) as [x|] eqn:Hl; [|done]. simpl.
  apply last_Some_elem_of in Hl.
  by apply list_elem_of_filter in Hl as [? _].
Qed.

(** With a topological numbering, the loop stops before the fuel is spent,
    and its result is the last map on the chain it walked. *)
Lemma findRootMap_loop_chain (g : IR) (rank : OpId → nat) (f : OpId → bool) :
  topological g rank →
  ∀ fuel cur root,
    is_Some (g !! cur) →
    length g < fuel + rank cur →
    ∃ rest,
      findRootMap_loop fuel g f cur root = Some (lastSeenMap g root rest)
      ∧ chained g f (cur :: rest)
      ∧ stopsAt g f (default cur (last (cur :: rest))).
Proof.
  intros Htopo. induction fuel as [|fuel IH]; intros cur root [o Ho] Hfuel.
  - destruct (Htopo _ _ Ho) as [Hlt _]. lia.
  - simpl. destruct (f cur) eqn:Hf.
    + destruct (getUsers g cur) as [|u [|u' us]] eqn:Hus.
      * exists []. split; [done | split; [done |]].
        right. change (default cur (last [cur])) with cur. by rewrite Hus.
      * assert (Hu : u ∈ getUsers g cur) by (rewrite Hus; left).
        apply getUsers_elem in Hu as (uo & Huo & Hcur).
        destruct (Htopo _ _ Huo) as [_ Hops].
        rewrite Forall_forall in Hops. specialize (Hops _ Hcur).
        destruct (IH u (if isMapOp g u then u else root)) as (rest & Hr & Hc & Hs);
          [eauto | lia |].
        exists (u :: rest). split; [|split].
        -- by rewrite Hr, lastSeenMap_cons.
        -- by split_and!.
        -- by rewrite (default_last_cons cur u).
      * exists []. split; [done | split; [done |]].
        right. change (default cur (last [cur])) with cur. rewrite Hus.
        simpl. lia.
    + exists []. split; [done | split; [done |]]. by left.
Qed.

Lemma findRootMap_stops_at_start (g : IR) (f : OpId → bool) (op : OpId) :
  stopsAt g f op → findRootMap g f op = Some op.
Proof.
  unfold findRootMap, stopsAt. cbn [findRootMap_loop]. intros [Hf | Hlen].
  - by rewrite Hf.
  - destruct (f op); [|done].
    by destruct (getUsers g op) as [|u [|u' us]].
Qed.

(** C1.  On a data-flow graph with a topological numbering (a consumer is
    numbered above its producers), for every starting map node [op] and every
    fusibility predicate [f], [findRootMap] returns.  There is a list
    [landed] of the nodes the walk landed on: along [op :: landed] every node
    but the last satisfies [f] and has the next node as its only user; the
    walk stops at the last node because [f] fails there or its number of
    users is not one; the result is the last map node among [landed], or
    [op] when there is none, and it is a map node.  In particular a start
    with two or more users, and more generally a start at which the walk
    stops at once, is its own root. *)
Theorem findRootMap_spec (g : IR) (rank : OpId → nat) (f : OpId → bool)
    (op : OpId) :
  topological g rank →
  isMapOp g op = true →
  ∃ landed,
    findRootMap g f op = Some (lastSeenMap g op landed)
    ∧ chained g f (op :: landed)
    ∧ stopsAt g f (default op (last (op :: landed)))
    ∧ isMapOp g (lastSeenMap g op landed) = true
    ∧ (2 ≤ length (getUsers g op) → findRootMap g f op = Some op)
    ∧ (stopsAt g f op → findRootMap g f op = Some op).
Proof.
  intros Htopo Hmap.
  assert (Hop : is_Some (g !! op)).
  { unfold isMapOp in Hmap. destruct (g !! op); [eauto | done]. }
  destruct (findRootMap_loop_chain g rank f Htopo (S (length g)) op op)
    as (landed & Hr & Hc & Hs); [done | lia |].
  exists landed. split; [exact Hr|]. split; [exact Hc|]. split; [exact Hs|].
  split; [by apply lastSeenMap_isMap|]. split.
  - intros Hfan. apply findRootMap_stops_at_start. right. lia.
  - apply findRootMap_stops_at_start.
Qed.

Lemma findRootMap_spec_witness :
  ∃ landed,
    findRootMap chainFunc (@fuseFilterFn refCollaborators chainFunc) 2
      = Some (lastSeenMap chainFunc 2 landed)
    ∧ chained chainFunc (@fuseFilterFn refCollaborators chainFunc) (2 :: landed)
    ∧ stopsAt chainFunc (@fuseFilterFn refCollaborators chainFunc)
        (default 2 (last (2 :: landed)))
    ∧ isMapOp chainFunc (lastSeenMap chainFunc 2 landed) = true
    ∧ (2 ≤ length (getUsers chainFunc 2)
       → findRootMap chainFunc (@fuseFilterFn refCollaborators chainFunc) 2
         = Some 2)
    ∧ (stopsAt chainFunc (@fuseFilterFn refCollaborators chainFunc) 2
       → findRootMap chainFunc (@fuseFilterFn refCollaborators chainFunc) 2
         = Some 2).
Proof.
  apply (findRootMap_spec chainFunc id
           (@fuseFilterFn refCollaborators chainFunc) 2).
  - apply topologicalb_sound. vm_compute. reflexivity.
  - reflexivity.
Defined.

(** The walk fails to stop only on a graph that has no topological
    numbering, that is, on a cyclic use list. *)
Corollary findRootMap_diverges_on_cycles_only (g : IR) (f : OpId → bool)
    (op : OpId) :
  is_Some (g !! op) →
  findRootMap g f op = None →
  ∀ rank, ¬ topological g rank.
Proof.
  intros Hop Hnone rank Htopo.
  destruct (findRootMap_loop_chain g rank f Htopo (S (length g)) op op)
    as (landed & Hr & _); [done | lia |].
  unfold findRootMap in Hnone. congruence.
Qed.

(** Scenario B: the chain [fill -> map -> map] is rooted at the final map,
    from each of its nodes. *)
Example findRootMap_chain :
  findRootMap chainFunc (@fuseFilterFn refCollaborators chainFunc) 2 = Some 3
  ∧ findRootMap chainFunc (@fuseFilterFn refCollaborators chainFunc) 3 = Some 3.
Proof. split; reflexivity. Qed.

(** Scenario C: a map that feeds two maps is its own root. *)
Example findRootMap_fan_out :
  getUsers fanOutFunc 1 = [2; 3]
  ∧ findRootMap fanOutFunc (@fuseFilterFn refCollaborators fanOutFunc) 1 = Some 1.
Proof. split; reflexivity. Qed.

(** [getUsers] has one entry per use: a map whose only consumer takes its
    result twice has two users, and is its own root. *)
Example findRootMap_double_use :
  getUsers doubleUseFunc 1 = [2; 2]
  ∧ findRootMap doubleUseFunc (@fuseFilterFn refCollaborators doubleUseFunc) 1
    = Some 1.
Proof. split; reflexivity. Qed.

(** ** The tile sizes *)

Lemma insert_last_replicate {A} (n : nat) (x y : A) :
  <[n := y]> (replicate (S n) x) = replicate n x ++ [y].
Proof. induction n as [|n IH]; [done|]. simpl. f_equal. exact IH. Qed.

Lemma getNumLoops_map (g : IR) (op : OpId) (o : Operation) (R : nat) :
  g !! op = Some o → kind o = MapOp R → getNumLoops g op = R.
Proof.
  intros Ho Hk. unfold getNumLoops. rewrite Ho.
  destruct o as [k ? ? ?]. simpl in Hk. by subst k.
Qed.

Lemma tileSizeComputation_rank0_eq (T : Z) (b : OpBuilder) (g : IR)
    (op : OpId) (o : Operation) :
  g !! op = Some o → kind o = MapOp 0 →
  tileSizeComputation T b op g
  = Some ([], g ++ [mkOp (ConstantIndexOp 1) [] ∅ (insertionParent b)]).
Proof.
  intros Ho Hk. unfold tileSizeComputation, bind, gets, create, ret.
  by rewrite (getNumLoops_map g op o 0 Ho Hk).
Qed.

Lemma tileSizeComputation_rankS_eq (T : Z) (b : OpBuilder) (g : IR)
    (op : OpId) (o : Operation) (n : nat) :
  g !! op = Some o → kind o = MapOp (S n) →
  tileSizeComputation T b op g
  = Some (replicate n (length g) ++ [S (length g)],
          (g ++ [mkOp (ConstantIndexOp 1) [] ∅ (insertionParent b)])
            ++ [mkOp (ConstantIndexOp T) [] ∅ (insertionParent b)]).
Proof.
  intros Ho Hk. unfold tileSizeComputation, bind, gets, create, ret.
  rewrite (getNumLoops_map g op o (S n) Ho Hk).
  cbn [replicate]. do 2 f_equal.
  rewrite length_app. cbn [length]. rewrite length_replicate, Nat.add_1_r.
  apply (insert_last_replicate n).
Qed.

(** C2.  For a map node [op] of rank [R] and the configured innermost tile
    size [T], the tile-size computation function returns a vector of exactly
    [R] values.  For [R = 0] the vector is empty; for [R = n + 1] its entries
    are index constants, [n] of them equal to 1 followed by a last one
    equal to [T]. *)
Theorem tileSizeComputation_spec (T : Z) (b : OpBuilder) (g : IR) (op : OpId)
    (o : Operation) (R : nat) :
  g !! op = Some o →
  kind o = MapOp R →
  ∃ tiles g',
    tileSizeComputation T b op g = Some (tiles, g')
    ∧ length tiles = R
    ∧ (R = 0 → tiles = [])
    ∧ (∀ n, R = S n →
         constantValue g' <$> tiles = replicate n (Some 1%Z) ++ [Some T]).
Proof.
  intros Ho Hk. destruct R as [|n].
  - eexists _, _. split; [by eapply tileSizeComputation_rank0_eq|].
    by split_and!.
  - eexists _, _. split; [by eapply tileSizeComputation_rankS_eq|].
    split_and!.
    + rewrite length_app, length_replicate. simpl. lia.
    + done.
    + intros m [= <-].
      rewrite fmap_app, fmap_replicate. f_equal.
      * f_equal. unfold constantValue.
        rewrite lookup_app_l by (rewrite length_app; simpl; lia).
        by rewrite lookup_app_r, Nat.sub_diag by lia.
      * simpl. f_equal. unfold constantValue.
        rewrite lookup_app_r by (rewrite length_app; simpl; lia).
        rewrite length_app. simpl.
        by replace (S (length g) - (length g + 1)) with 0 by lia.
Qed.

Lemma tileSizeComputation_spec_witness :
  ∃ tiles g',
    tileSizeComputation 8 {| insertionParent := Some 0 |} 3 chainFunc
      = Some (tiles, g')
    ∧ length tiles = 2
    ∧ (2 = 0 → tiles = [])
    ∧ (∀ n, 2 = S n →
         constantValue g' <$> tiles = replicate n (Some 1%Z) ++ [Some 8%Z]).
Proof.
  apply (tileSizeComputation_spec 8 {| insertionParent := Some 0 |} chainFunc 3
           (op_ (MapOp 2) [2] (Some 0)) 2); reflexivity.
Defined.

(** The tile sizes of a map of rank 3 for [T = 8] are [[1; 1; 8]], those of
    a map of rank 0 are [[]]. *)
Example tileSizeComputation_rank3 :
  tileSizeComputation 8 {| insertionParent := None |} 0 [op_ (MapOp 3) [] None]
  = Some ([1; 1; 2],
          [op_ (MapOp 3) [] None;
           op_ (ConstantIndexOp 1) [] None;
           op_ (ConstantIndexOp 8) [] None]).
Proof. reflexivity. Qed.

Example tileSizeComputation_rank0 :
  tileSizeComputation 8 {| insertionParent := None |} 0 [op_ (MapOp 0) [] None]
  = Some ([], [op_ (MapOp 0) [] None; op_ (ConstantIndexOp 1) [] None]).
Proof. reflexivity. Qed.

(** ** Labels *)

Lemma hasLabel_setLabel (g : IR) (op : OpId) (name : string) :
  is_Some (g !! op) → hasLabel (setLabel op name g) op name = true.
Proof.
  intros [o Ho]. unfold hasLabel, setLabel.
  rewrite list_lookup_alter_eq, Ho. simpl.
  apply bool_decide_eq_true. by rewrite lookup_insert_eq.
Qed.

Lemma setLabel_lookup_ne (g : IR) (op op' : OpId) (name : string) :
  op ≠ op' → setLabel op name g !! op' = g !! op'.
Proof. intros Hne. unfold setLabel. by rewrite list_lookup_alter_ne. Qed.

Lemma setLabel_kind (g : IR) (op op' : OpId) (name : string) :
  kind <$> setLabel op name g !! op' = kind <$> g !! op'.
Proof.
  unfold setLabel. destruct (decide (op = op')) as [->|Hne].
  - rewrite list_lookup_alter_eq. by destruct (g !! op').
  - by rewrite list_lookup_alter_ne.
Qed.

(** ** The rewrite pattern *)

Section PatternProperties.
Context {C : Collaborators}.

Lemma matchAndRewrite_labelled (T : Z) (g : IR) (op : OpId) :
  hasLabel g op kTransformedLabel = true →
  matchAndRewrite T op g = Some (failure, g).
Proof. intros Hl. unfold matchAndRewrite, ret. by rewrite Hl. Qed.

Lemma matchAndRewrite_nested (T : Z) (g : IR) (op : OpId) :
  parentIsLoop g op = true →
  matchAndRewrite T op g = Some (failure, g).
Proof.
  intros Hp. unfold matchAndRewrite, notifyMatchFailure, ret. rewrite Hp.
  by destruct (hasLabel g op kTransformedLabel).
Qed.

Lemma matchAndRewrite_root_labelled (T : Z) (g : IR) (op root : OpId) :
  findRootMap g (fuseFilterFn g) op = Some root →
  hasLabel g root kTransformedLabel = true →
  matchAndRewrite T op g = Some (failure, g).
Proof.
  intros Hroot Hl. unfold matchAndRewrite, notifyMatchFailure, ret.
  destruct (hasLabel g op kTransformedLabel); [done|].
  destruct (parentIsLoop g op); [done|].
  by rewrite Hroot, Hl.
Qed.

(** C6.  The pattern reports a non-match and leaves the IR as it is when the
    candidate is already labelled [transformed], when its parent operation
    is an [scf.forall] or [scf.for] loop, or when the fusion root found for
    it is already labelled [transformed]. *)
Theorem matchAndRewrite_non_match (T : Z) (g : IR) (op : OpId) :
  hasLabel g op kTransformedLabel = true
  ∨ parentIsLoop g op = true
  ∨ (∃ root, findRootMap g (fuseFilterFn g) op = Some root
             ∧ hasLabel g root kTransformedLabel = true) →
  matchAndRewrite T op g = Some (failure, g).
Proof.
  intros [Hl | [Hp | (root & Hroot & Hl)]].
  - by apply matchAndRewrite_labelled.
  - by apply matchAndRewrite_nested.
  - by apply matchAndRewrite_root_labelled with root.
Qed.

(** Past the three checks the pattern is [tileRoot] on the root. *)
Lemma matchAndRewrite_tileRoot (T : Z) (g : IR) (op root : OpId) :
  hasLabel g op kTransformedLabel = false →
  parentIsLoop g op = false →
  findRootMap g (fuseFilterFn g) op = Some root →
  hasLabel g root kTransformedLabel = false →
  matchAndRewrite T op g = tileRoot T root g.
Proof.
  intros Hl Hp Hroot Hrl. unfold matchAndRewrite.
  by rewrite Hl, Hp, Hroot, Hrl.
Qed.

Lemma tileRoot_tiled (T : Z) (g g1 g2 : IR) (root : OpId)
    (tl : GmlStTilingResult) (pr : GmlStPeelingResult) :
  tileUsingSCFForallOpAndFuseGreedily root (tilingOptions T) fuseFilterFn g
    = Some (Succeeded tl, g1) →
  peelAllLoops (loop tl) g1 = Some (pr, g2) →
  tileRoot T root g
  = tilePeeledOpsToScalars pr fuseFilterFn
      (setLabel (loop tl) kPerfectlyTiledLoopLabel g2).
Proof.
  intros Ht Hp. unfold tileRoot, bind, modify. by rewrite Ht, Hp.
Qed.

(** C7.  When the candidate passes the checks and tiling-and-fusion of its
    root succeeds with the tiled loop [loop tl], the pattern runs the peeling
    driver on that loop and then labels it: what the pattern returns is the
    scalarization driver run on the peeling result in the IR [g3] that the
    peeling driver left, with the label [perfectly-tiled-loop] set on the
    loop.  Setting the label changes nothing else: the other operations, and
    the kind, operands and parent of the loop, are as peeling left them. *)
Theorem matchAndRewrite_peels_and_labels (T : Z) (g g1 g2 : IR)
    (op root : OpId) (tl : GmlStTilingResult) (pr : GmlStPeelingResult) :
  hasLabel g op kTransformedLabel = false →
  parentIsLoop g op = false →
  findRootMap g (fuseFilterFn g) op = Some root →
  hasLabel g root kTransformedLabel = false →
  tileUsingSCFForallOpAndFuseGreedily root (tilingOptions T) fuseFilterFn g
    = Some (Succeeded tl, g1) →
  peelAllLoops (loop tl) g1 = Some (pr, g2) →
  is_Some (g2 !! loop tl) →
  let g3 := setLabel (loop tl) kPerfectlyTiledLoopLabel g2 in
  matchAndRewrite T op g = tilePeeledOpsToScalars pr fuseFilterFn g3
  ∧ hasLabel g3 (loop tl) kPerfectlyTiledLoopLabel = true
  ∧ (∀ op', op' ≠ loop tl → g3 !! op' = g2 !! op')
  ∧ g3 !! loop tl = setAttr kPerfectlyTiledLoopLabel UnitAttr <$> g2 !! loop tl.
Proof.
  intros Hl Hp Hroot Hrl Ht Hpeel Hlive g3. split_and!.
  - rewrite (matchAndRewrite_tileRoot T g op root Hl Hp Hroot Hrl).
    by apply tileRoot_tiled with g1.
  - by apply hasLabel_setLabel.
  - intros op' Hne. by apply setLabel_lookup_ne.
  - unfold g3, setLabel. by rewrite list_lookup_alter_eq.
Qed.

(** C9.  When tiling-and-fusion and peeling have gone through and the
    scalarization driver then reports failure, the pattern reports failure
    with the IR [g4] that the scalarization driver left, not with the IR [g]
    it was given: the drivers' mutations are not undone.  The label
    [perfectly-tiled-loop] was set on the tiled loop before the scalarization
    driver ran, and it is on the loop in [g4] whenever that driver has left
    the loop itself as it found it. *)
Theorem matchAndRewrite_failure_after_label (T : Z) (g g1 g2 g4 : IR)
    (op root : OpId) (tl : GmlStTilingResult) (pr : GmlStPeelingResult) :
  hasLabel g op kTransformedLabel = false →
  parentIsLoop g op = false →
  findRootMap g (fuseFilterFn g) op = Some root →
  hasLabel g root kTransformedLabel = false →
  tileUsingSCFForallOpAndFuseGreedily root (tilingOptions T) fuseFilterFn g
    = Some (Succeeded tl, g1) →
  peelAllLoops (loop tl) g1 = Some (pr, g2) →
  is_Some (g2 !! loop tl) →
  tilePeeledOpsToScalars pr fuseFilterFn
    (setLabel (loop tl) kPerfectlyTiledLoopLabel g2) = Some (failure, g4) →
  matchAndRewrite T op g = Some (failure, g4)
  ∧ hasLabel (setLabel (loop tl) kPerfectlyTiledLoopLabel g2) (loop tl)
      kPerfectlyTiledLoopLabel = true
  ∧ (g4 !! loop tl = setLabel (loop tl) kPerfectlyTiledLoopLabel g2 !! loop tl
     → hasLabel g4 (loop tl) kPerfectlyTiledLoopLabel = true).
Proof.
  intros Hl Hp Hroot Hrl Ht Hpeel Hlive Hs.
  assert (Hlab : hasLabel (setLabel (loop tl) kPerfectlyTiledLoopLabel g2)
                   (loop tl) kPerfectlyTiledLoopLabel = true)
    by by apply hasLabel_setLabel.
  split_and!.
  - rewrite (matchAndRewrite_tileRoot T g op root Hl Hp Hroot Hrl).
    by rewrite (tileRoot_tiled T g g1 g2 root tl pr Ht Hpeel).
  - exact Hlab.
  - intros Hsame. unfold hasLabel in *. by rewrite Hsame.
Qed.

End PatternProperties.

Section PatternOutcomes.
Context {C : Collaborators}.

Lemma parentIsLoop_iff (g : IR) (op : OpId) :
  parentIsLoop g op = true ↔
  ∃ o p po, g !! op = Some o ∧ parentOp o = Some p ∧ g !! p = Some po
            ∧ (kind po = ForallOp ∨ kind po = ForOp).
Proof.
  unfold parentIsLoop. split.
  - destruct (g !! op) as [o|] eqn:Ho; [|done].
    destruct (parentOp o) as [p|] eqn:Hp; [|done].
    destruct (g !! p) as [po|] eqn:Hpo; [|done].
    intros Hk. exists o, p, po. split_and!; try done.
    destruct (kind po); try done; auto.
  - intros (o & p & po & -> & -> & -> & [-> | ->]); done.
Qed.

(** C10.  The nesting check looks at the parent operation only.  It holds
    exactly when the candidate has a parent operation and that operation is
    an [scf.forall] or an [scf.for]; nothing else of the loop (its
    attributes, its operands, where it is nested) is consulted.  An
    unlabelled candidate whose parent is such a loop is skipped with the IR
    unchanged.  A candidate whose parent is an operation of another kind
    passes the check, whatever encloses that parent, and the pattern goes on
    to the root finder. *)
Theorem parent_check_is_immediate (T : Z) (g : IR) (op : OpId) :
  (parentIsLoop g op = true ↔
     ∃ o p po, g !! op = Some o ∧ parentOp o = Some p ∧ g !! p = Some po
               ∧ (kind po = ForallOp ∨ kind po = ForOp))
  ∧ (hasLabel g op kTransformedLabel = false →
     parentIsLoop g op = true →
     matchAndRewrite T op g = Some (failure, g))
  ∧ (∀ o p po,
       g !! op = Some o → parentOp o = Some p → g !! p = Some po →
       isLoopKind (kind po) = false →
       parentIsLoop g op = false)
  ∧ (hasLabel g op kTransformedLabel = false →
     parentIsLoop g op = false →
     matchAndRewrite T op g
     = match findRootMap g (fuseFilterFn g) op with
       | None => None
       | Some root =>
           if hasLabel g root kTransformedLabel then Some (failure, g)
           else tileRoot T root g
       end).
Proof.
  split_and!.
  - apply parentIsLoop_iff.
  - intros _ Hp. by apply matchAndRewrite_nested.
  - intros o p po Ho Hp Hpo Hk. unfold parentIsLoop. by rewrite Ho, Hp, Hpo.
  - intros Hl Hp. unfold matchAndRewrite. by rewrite Hl, Hp.
Qed.

(** C3, as the code has it.  The outcomes of the pattern are exactly these.
    It reports failure with the IR it was given when the candidate is
    skipped by one of the three checks.  Past the checks, when
    tiling-and-fusion of the root fails, it reports failure with the IR as
    the tiling driver left it.  When tiling-and-fusion succeeds, it peels the
    loop, labels it, and reports what the scalarization driver reports, with
    the IR as that driver left it: on failure the tiling, the peeling and the
    label are not undone.  In particular it reports success only if
    tiling-and-fusion and scalarization both succeed; the peeling driver has
    no failure to report. *)
Theorem matchAndRewrite_outcomes (T : Z) (g g' : IR) (op : OpId)
    (r : LogicalResult) :
  matchAndRewrite T op g = Some (r, g') ↔
  ((hasLabel g op kTransformedLabel = true
    ∨ parentIsLoop g op = true
    ∨ (∃ root, findRootMap g (fuseFilterFn g) op = Some root
               ∧ hasLabel g root kTransformedLabel = true))
   ∧ r = failure ∧ g' = g)
  ∨ (∃ root,
       hasLabel g op kTransformedLabel = false
       ∧ parentIsLoop g op = false
       ∧ findRootMap g (fuseFilterFn g) op = Some root
       ∧ hasLabel g root kTransformedLabel = false
       ∧ tileUsingSCFForallOpAndFuseGreedily root (tilingOptions T)
           fuseFilterFn g = Some (Failed, g')
       ∧ r = failure)
  ∨ (∃ root tl g1 pr g2,
       hasLabel g op kTransformedLabel = false
       ∧ parentIsLoop g op = false
       ∧ findRootMap g (fuseFilterFn g) op = Some root
       ∧ hasLabel g root kTransformedLabel = false
       ∧ tileUsingSCFForallOpAndFuseGreedily root (tilingOptions T)
           fuseFilterFn g = Some (Succeeded tl, g1)
       ∧ peelAllLoops (loop tl) g1 = Some (pr, g2)
       ∧ tilePeeledOpsToScalars pr fuseFilterFn
           (setLabel (loop tl) kPerfectlyTiledLoopLabel g2)
         = Some (r, g')).
Proof.
  split.
  - unfold matchAndRewrite, notifyMatchFailure, ret. intros H.
    destruct (hasLabel g op kTransformedLabel) eqn:Hl.
    { injection H as <- <-. left. auto. }
    destruct (parentIsLoop g op) eqn:Hp.
    { injection H as <- <-. left. auto. }
    destruct (findRootMap g (fuseFilterFn g) op) as [root|] eqn:Hroot; [|done].
    destruct (hasLabel g root kTransformedLabel) eqn:Hrl.
    { injection H as <- <-. left. split; [|done]. right; right. eauto. }
    unfold tileRoot, bind, modify, ret in H.
    destruct (tileUsingSCFForallOpAndFuseGreedily root (tilingOptions T)
                fuseFilterFn g) as [[[tl|] g1]|] eqn:Ht; [| |done].
    + destruct (peelAllLoops (loop tl) g1) as [[pr g2]|] eqn:Hpeel; [|done].
      right; right. exists root, tl, g1, pr, g2. by split_and!.
    + injection H as <- <-. right; left. exists root. by split_and!.
  - intros [[Hskip [-> ->]] | [H | H]].
    + destruct Hskip as [Hl | [Hp | (root & Hroot & Hl)]].
      * by apply matchAndRewrite_labelled.
      * by apply matchAndRewrite_nested.
      * by apply matchAndRewrite_root_labelled with root.
    + destruct H as (root & Hl & Hp & Hroot & Hrl & Ht & ->).
      rewrite (matchAndRewrite_tileRoot T g op root Hl Hp Hroot Hrl).
      unfold tileRoot, bind, ret. by rewrite Ht.
    + destruct H as (root & tl & g1 & pr & g2 & Hl & Hp & Hroot & Hrl & Ht
                     & Hpeel & Hs).
      rewrite (matchAndRewrite_tileRoot T g op root Hl Hp Hroot Hrl).
      by rewrite (tileRoot_tiled T g g1 g2 root tl pr Ht Hpeel).
Qed.

End PatternOutcomes.

Lemma matchAndRewrite_non_match_witness :
  @matchAndRewrite refCollaborators 8 1 markedMapFunc
    = Some (failure, markedMapFunc)
  ∧ @matchAndRewrite refCollaborators 8 2 tiledFunc = Some (failure, tiledFunc)
  ∧ @matchAndRewrite refCollaborators 8 1 markedRootFunc
    = Some (failure, markedRootFunc).
Proof.
  split; [|split].
  - apply (@matchAndRewrite_non_match refCollaborators 8 markedMapFunc 1).
    left. reflexivity.
  - apply (@matchAndRewrite_non_match refCollaborators 8 tiledFunc 2).
    right; left. reflexivity.
  - apply (@matchAndRewrite_non_match refCollaborators 8 markedRootFunc 1).
    right; right. exists 2. split; reflexivity.
Defined.

(** The reference drivers on [singleMapFunc], step by step. *)
Lemma refTile_singleMapFunc :
  refTile 1 (tilingOptions 8) (@fuseFilterFn refCollaborators) singleMapFunc
  = Some (Succeeded {| tiledOps := [1]; loop := 4 |}, tiledSingleMapFunc).
Proof. vm_compute. reflexivity. Qed.

Lemma refPeel_tiledSingleMapFunc :
  refPeel 4 tiledSingleMapFunc
  = Some ({| mainLoops := [4]; tailLoops := [5] |}, peeledSingleMapFunc).
Proof. vm_compute. reflexivity. Qed.

Lemma matchAndRewrite_peels_and_labels_witness :
  @matchAndRewrite refCollaborators 8 1 singleMapFunc
    = refScalarize {| mainLoops := [4]; tailLoops := [5] |}
        (@fuseFilterFn refCollaborators)
        (setLabel 4 kPerfectlyTiledLoopLabel peeledSingleMapFunc)
  ∧ hasLabel (setLabel 4 kPerfectlyTiledLoopLabel peeledSingleMapFunc) 4
      kPerfectlyTiledLoopLabel = true
  ∧ (∀ op', op' ≠ 4 →
       setLabel 4 kPerfectlyTiledLoopLabel peeledSingleMapFunc !! op'
       = peeledSingleMapFunc !! op')
  ∧ setLabel 4 kPerfectlyTiledLoopLabel peeledSingleMapFunc !! 4
    = setAttr kPerfectlyTiledLoopLabel UnitAttr <$> peeledSingleMapFunc !! 4.
Proof.
  apply (@matchAndRewrite_peels_and_labels refCollaborators 8 singleMapFunc
           tiledSingleMapFunc peeledSingleMapFunc 1 1
           {| tiledOps := [1]; loop := 4 |}
           {| mainLoops := [4]; tailLoops := [5] |}).
  - reflexivity.
  - reflexivity.
  - reflexivity.
  - reflexivity.
  - exact refTile_singleMapFunc.
  - exact refPeel_tiledSingleMapFunc.
  - eexists. reflexivity.
Defined.

Lemma matchAndRewrite_failure_after_label_witness :
  @matchAndRewrite givingUpScalarization 8 1 singleMapFunc
    = Some (failure, setLabel 4 kPerfectlyTiledLoopLabel peeledSingleMapFunc)
  ∧ hasLabel (setLabel 4 kPerfectlyTiledLoopLabel peeledSingleMapFunc) 4
      kPerfectlyTiledLoopLabel = true
  ∧ (setLabel 4 kPerfectlyTiledLoopLabel peeledSingleMapFunc !! 4
     = setLabel 4 kPerfectlyTiledLoopLabel peeledSingleMapFunc !! 4
     → hasLabel (setLabel 4 kPerfectlyTiledLoopLabel peeledSingleMapFunc) 4
         kPerfectlyTiledLoopLabel = true).
Proof.
  apply (@matchAndRewrite_failure_after_label givingUpScalarization 8
           singleMapFunc tiledSingleMapFunc peeledSingleMapFunc
           (setLabel 4 kPerfectlyTiledLoopLabel peeledSingleMapFunc) 1 1
           {| tiledOps := [1]; loop := 4 |}
           {| mainLoops := [4]; tailLoops := [5] |}).
  - reflexivity.
  - reflexivity.
  - reflexivity.
  - reflexivity.
  - exact refTile_singleMapFunc.
  - exact refPeel_tiledSingleMapFunc.
  - eexists. reflexivity.
  - reflexivity.
Defined.

Lemma parent_check_is_immediate_witness :
  @matchAndRewrite refCollaborators 8 2 tiledFunc = Some (failure, tiledFunc)
  ∧ parentIsLoop guardedFunc 3 = false.
Proof.
  split.
  - apply (proj1 (proj2 (@parent_check_is_immediate refCollaborators 8
                           tiledFunc 2))); reflexivity.
  - apply (proj1 (proj2 (proj2 (@parent_check_is_immediate refCollaborators 8
                                  guardedFunc 3)))
             (op_ (MapOp 1) [] (Some 2)) 2 (op_ (OtherOp "scf.if") [] (Some 1)));
      reflexivity.
Defined.

Lemma matchAndRewrite_outcomes_witness :
  @matchAndRewrite refCollaborators 8 1 singleMapFunc
    = Some (success, setLabel 4 kPerfectlyTiledLoopLabel peeledSingleMapFunc)
  ∧ @matchAndRewrite givingUpScalarization 8 1 singleMapFunc
    = Some (failure, setLabel 4 kPerfectlyTiledLoopLabel peeledSingleMapFunc)
  ∧ @matchAndRewrite refCollaborators 8 1 markedMapFunc
    = Some (failure, markedMapFunc).
Proof.
  split; [|split].
  - apply (proj2 (@matchAndRewrite_outcomes refCollaborators 8 singleMapFunc
                    _ 1 success)).
    right; right.
    exists 1, {| tiledOps := [1]; loop := 4 |}, tiledSingleMapFunc,
      {| mainLoops := [4]; tailLoops := [5] |}, peeledSingleMapFunc.
    split_and!;
      first [exact refTile_singleMapFunc | exact refPeel_tiledSingleMapFunc
            | reflexivity].
  - apply (proj2 (@matchAndRewrite_outcomes givingUpScalarization 8
                    singleMapFunc _ 1 failure)).
    right; right.
    exists 1, {| tiledOps := [1]; loop := 4 |}, tiledSingleMapFunc,
      {| mainLoops := [4]; tailLoops := [5] |}, peeledSingleMapFunc.
    split_and!;
      first [exact refTile_singleMapFunc | exact refPeel_tiledSingleMapFunc
            | reflexivity].
  - apply (proj2 (@matchAndRewrite_outcomes refCollaborators 8 markedMapFunc
                    _ 1 failure)).
    left. split; [left; reflexivity | done].
Defined.

(** C3 as stated fails: with a scalarization driver that reports failure, the
    pattern reports failure on the map of [singleMapFunc] and leaves behind
    the loop, its label, the constants and the remainder loop. *)
Lemma matchAndRewrite_failure_mutates :
  @matchAndRewrite givingUpScalarization 8 1 singleMapFunc
    = Some (failure, setLabel 4 kPerfectlyTiledLoopLabel peeledSingleMapFunc)
  ∧ setLabel 4 kPerfectlyTiledLoopLabel peeledSingleMapFunc ≠ singleMapFunc
  ∧ parentIsLoop (setLabel 4 kPerfectlyTiledLoopLabel peeledSingleMapFunc) 1
    = true
  ∧ hasLabel (setLabel 4 kPerfectlyTiledLoopLabel peeledSingleMapFunc) 4
      kPerfectlyTiledLoopLabel = true.
Proof.
  split; [vm_compute; reflexivity|]. split; [|split; reflexivity].
  intros H. apply (f_equal length) in H. vm_compute in H. discriminate.
Qed.

(** ** The pass *)

Lemma removeLabel_lookup_eq (g : IR) (op : OpId) (name : string) :
  removeLabel op name g !! op = removeAttr name <$> g !! op.
Proof. unfold removeLabel. by rewrite list_lookup_alter_eq. Qed.

Lemma removeLabel_lookup_ne (g : IR) (op op' : OpId) (name : string) :
  op ≠ op' → removeLabel op name g !! op' = g !! op'.
Proof. intros Hne. unfold removeLabel. by rewrite list_lookup_alter_ne. Qed.

Lemma removeLabel_isMapOp (g : IR) (op op' : OpId) (name : string) :
  isMapOp (removeLabel op name g) op' = isMapOp g op'.
Proof.
  unfold isMapOp. destruct (decide (op = op')) as [->|Hne].
  - rewrite removeLabel_lookup_eq. by destruct (g !! op').
  - by rewrite removeLabel_lookup_ne.
Qed.

Lemma removeAttr_absent (name : string) (o : Operation) :
  attrs o !! name = None → removeAttr name o = o.
Proof.
  intros Hn. destruct o as [k args a p]. unfold removeAttr. simpl in *.
  f_equal. by apply delete_id.
Qed.

(** The walk as a fold over the operations [l] still to visit. *)
Lemma walk_fold_lookup (name : string) (l : list OpId) :
  NoDup l →
  ∀ (g : IR) (i : OpId),
    foldl (λ g' op, if isMapOp g' op then removeLabel op name g' else g') g l
      !! i
    = if bool_decide (i ∈ l) && isMapOp g i
      then removeAttr name <$> g !! i else g !! i.
Proof.
  intros Hnd. induction Hnd as [|a l Ha Hl IH]; intros g i; [done|].
  cbn [foldl]. rewrite IH.
  assert (Hmap : ∀ j, isMapOp (if isMapOp g a then removeLabel a name g else g) j
                      = isMapOp g j).
  { intros j. destruct (isMapOp g a); [apply removeLabel_isMapOp | done]. }
  rewrite Hmap.
  destruct (decide (i = a)) as [->|Hne].
  - rewrite (bool_decide_eq_false_2 (a ∈ l)) by done.
    rewrite (bool_decide_eq_true_2 (a ∈ a :: l)) by left.
    cbn [andb]. destruct (isMapOp g a); [apply removeLabel_lookup_eq | done].
  - assert (Hi : bool_decide (i ∈ a :: l) = bool_decide (i ∈ l)).
    { apply bool_decide_ext. rewrite elem_of_cons.
      split; [intros [?|?]; done | by right]. }
    rewrite Hi.
    assert (Hg : (if isMapOp g a then removeLabel a name g else g) !! i = g !! i).
    { destruct (isMapOp g a); [by apply removeLabel_lookup_ne | done]. }
    by rewrite Hg.
Qed.

Lemma walkMapOps_removeLabel_lookup (name : string) (g : IR) (i : OpId) :
  walkMapOps (λ op, removeLabel op name) g !! i
  = if isMapOp g i then removeAttr name <$> g !! i else g !! i.
Proof.
  unfold walkMapOps. rewrite walk_fold_lookup by apply NoDup_seq.
  destruct (isMapOp g i) eqn:Hm; [|by rewrite andb_false_r].
  assert (Hin : i ∈ seq 0 (length g)).
  { apply elem_of_seq. unfold isMapOp in Hm.
    destruct (g !! i) eqn:Hi; [|done].
    apply lookup_lt_Some in Hi. lia. }
  by rewrite (bool_decide_eq_true_2 _ Hin).
Qed.

Lemma walkMapOps_removeLabel_isMapOp (name : string) (g : IR) (i : OpId) :
  isMapOp (walkMapOps (λ op, removeLabel op name) g) i = isMapOp g i.
Proof.
  unfold isMapOp at 1. rewrite walkMapOps_removeLabel_lookup.
  unfold isMapOp. destruct (g !! i) as [o|]; [|done].
  by destruct (isMapKind (kind o)) eqn:Hk.
Qed.

Lemma walkMapOps_removeLabel_hasLabel (name : string) (g : IR) (i : OpId) :
  isMapOp g i = true →
  hasLabel (walkMapOps (λ op, removeLabel op name) g) i name = false.
Proof.
  intros Hm. unfold hasLabel. rewrite walkMapOps_removeLabel_lookup, Hm.
  destruct (g !! i) as [o|]; [|done]. simpl.
  apply bool_decide_eq_false. rewrite lookup_delete_eq. by intros [? ?].
Qed.

(** Where no map carries the label, the walk changes nothing. *)
Lemma walkMapOps_removeLabel_id (name : string) (g : IR) :
  (∀ op, isMapOp g op = true → hasLabel g op name = false) →
  walkMapOps (λ op, removeLabel op name) g = g.
Proof.
  intros Hno. apply list_eq. intros i.
  rewrite walkMapOps_removeLabel_lookup.
  destruct (isMapOp g i) eqn:Hm; [|done].
  specialize (Hno i Hm). unfold hasLabel in Hno.
  destruct (g !! i) as [o|]; [|done]. simpl. f_equal.
  apply removeAttr_absent.
  apply bool_decide_eq_false in Hno.
  by apply eq_None_not_Some.
Qed.

Lemma allMapsNested_sound (g : IR) :
  allMapsNested g = true →
  ∀ op, isMapOp g op = true → parentIsLoop g op = true.
Proof.
  unfold allMapsNested. rewrite forallb_forall. intros H op Hm.
  assert (Hin : In op (seq 0 (length g))).
  { apply in_seq. unfold isMapOp in Hm.
    destruct (g !! op) eqn:Hop; [|done].
    apply lookup_lt_Some in Hop. lia. }
  apply H in Hin. by rewrite Hm in Hin.
Qed.

(** ** The reference greedy driver *)

Lemma tryPatterns_no_match (patterns : list RewritePattern) (op : OpId)
    (g : IR) :
  (∀ p o, p ∈ patterns → g !! op = Some o → rootKind p (kind o) = true →
          rewrite_ p op g = Some (failure, g)) →
  tryPatterns patterns op g = Some (false, g).
Proof.
  induction patterns as [|p ps IH]; intros Hno; [done|].
  cbn [tryPatterns]. unfold bind, gets.
  assert (Hps : tryPatterns ps op g = Some (false, g)).
  { apply IH. intros q o Hq. apply Hno. by right. }
  destruct (g !! op) as [o|] eqn:Ho; [|done].
  destruct (rootKind p (kind o)) eqn:Hk; [|done].
  by rewrite (Hno p o (list_elem_of_here _ _) eq_refl Hk).
Qed.

Lemma sweep_no_match (patterns : list RewritePattern) (worklist : list OpId)
    (g : IR) :
  (∀ p op o, p ∈ patterns → g !! op = Some o → rootKind p (kind o) = true →
             rewrite_ p op g = Some (failure, g)) →
  sweep patterns worklist g = Some (false, g).
Proof.
  intros Hno. induction worklist as [|op rest IH]; [done|].
  cbn [sweep]. unfold bind.
  rewrite tryPatterns_no_match by (intros p o; apply Hno).
  by rewrite IH.
Qed.

(** With no pattern applicable anywhere, the driver converges at once and
    leaves the function as it is. *)
Lemma greedyLoop_no_match (n : nat) (patterns : list RewritePattern) (g : IR) :
  (∀ p op o, p ∈ patterns → g !! op = Some o → rootKind p (kind o) = true →
             rewrite_ p op g = Some (failure, g)) →
  greedyLoop (S n) patterns g = Some (success, g).
Proof.
  intros Hno. cbn [greedyLoop]. unfold bind, gets.
  by rewrite sweep_no_match.
Qed.

Section PassProperties.
Context {C : Collaborators}.

Lemma runOnOperation_cases (T : Z) (g : IR) :
  runOnOperation T g
  = match applyPatternsAndFoldGreedily
            (TileMapPattern T :: populateCollapseForallOpDimensionsPattern) g with
    | Some (failure, g1) => Some (passFailed, g1)
    | Some (success, g1) =>
        Some (passSucceeded,
              walkMapOps (λ op, removeLabel op kTransformedLabel) g1)
    | None => None
    end.
Proof.
  unfold runOnOperation, bind, modify, ret.
  by destruct (applyPatternsAndFoldGreedily _ g) as [[[|] g1]|].
Qed.

(** C4, as the code has it.  When the pass returns without signalling
    failure, the greedy driver has converged on some IR [g1] and the output
    is [g1] with the [transformed] label removed from its maps: no
    [linalg.map] of the output carries the label, and every operation that is
    not a [linalg.map], loops included, is exactly as the driver left it.
    When the pass signals failure, its output is the IR the driver left,
    with nothing removed. *)
Theorem runOnOperation_strips_maps (T : Z) (g g' : IR) (r : PassResult) :
  runOnOperation T g = Some (r, g') →
  (r = passSucceeded →
     ∃ g1,
       applyPatternsAndFoldGreedily
         (TileMapPattern T :: populateCollapseForallOpDimensionsPattern) g
         = Some (success, g1)
       ∧ (∀ op, isMapOp g' op = true →
                hasLabel g' op kTransformedLabel = false)
       ∧ (∀ op, isMapOp g1 op = true →
                g' !! op = removeAttr kTransformedLabel <$> g1 !! op)
       ∧ (∀ op, isMapOp g1 op = false → g' !! op = g1 !! op))
  ∧ (r = passFailed →
     applyPatternsAndFoldGreedily
       (TileMapPattern T :: populateCollapseForallOpDimensionsPattern) g
       = Some (failure, g')).
Proof.
  rewrite runOnOperation_cases. intros H.
  destruct (applyPatternsAndFoldGreedily _ g) as [[[|] g1]|]; [| |done].
  - injection H as <- <-. split; [|done]. intros _. exists g1. split_and!.
    + done.
    + intros op Hm. rewrite walkMapOps_removeLabel_isMapOp in Hm.
      by apply walkMapOps_removeLabel_hasLabel.
    + intros op Hm. by rewrite walkMapOps_removeLabel_lookup, Hm.
    + intros op Hm. by rewrite walkMapOps_removeLabel_lookup, Hm.
  - injection H as <- <-. by split.
Qed.

(** C8.  If the greedy driver reports failure (it has not converged within
    its iteration bound) and leaves the IR [g'], the pass signals failure and
    its output is [g']: whatever the rewrites committed before the bound was
    hit have done to the function is still there, nothing is rolled back
    (and no label is removed). *)
Theorem runOnOperation_not_converged (T : Z) (g g' : IR) :
  applyPatternsAndFoldGreedily
    (TileMapPattern T :: populateCollapseForallOpDimensionsPattern) g
    = Some (failure, g') →
  runOnOperation T g = Some (passFailed, g').
Proof. intros H. by rewrite runOnOperation_cases, H. Qed.

(** A sufficient condition, for any collaborators.  After a first run that
    succeeded with output [g1], no [linalg.map] of [g1] carries the
    [transformed] label.  If moreover every [linalg.map] of [g1] sits
    directly inside an [scf.forall] or [scf.for], the auxiliary patterns find
    nothing to rewrite in [g1], and the greedy driver, where no pattern
    applies, reports convergence and leaves the function alone, then in a
    second run the tiling pattern reports a non-match on every map and the
    run returns [g1] unchanged. *)
Theorem second_run_is_noop (T : Z) (g g1 : IR) :
  (∀ patterns,
     (∀ p op o, p ∈ patterns → g1 !! op = Some o → rootKind p (kind o) = true →
                rewrite_ p op g1 = Some (failure, g1)) →
     applyPatternsAndFoldGreedily patterns g1 = Some (success, g1)) →
  runOnOperation T g = Some (passSucceeded, g1) →
  (∀ op, isMapOp g1 op = true → parentIsLoop g1 op = true) →
  (∀ p op o, p ∈ populateCollapseForallOpDimensionsPattern →
             g1 !! op = Some o → rootKind p (kind o) = true →
             rewrite_ p op g1 = Some (failure, g1)) →
  (∀ op, isMapOp g1 op = true → hasLabel g1 op kTransformedLabel = false)
  ∧ (∀ op, isMapOp g1 op = true → matchAndRewrite T op g1 = Some (failure, g1))
  ∧ runOnOperation T g1 = Some (passSucceeded, g1).
Proof.
  intros Hdrv Hrun Hnested Haux.
  assert (Hclean : ∀ op, isMapOp g1 op = true →
                         hasLabel g1 op kTransformedLabel = false).
  { rewrite runOnOperation_cases in Hrun.
    destruct (applyPatternsAndFoldGreedily _ g) as [[[|] g0]|]; [|done|done].
    injection Hrun as <-. intros op Hm.
    rewrite walkMapOps_removeLabel_isMapOp in Hm.
    by apply walkMapOps_removeLabel_hasLabel. }
  assert (Hskip : ∀ op, isMapOp g1 op = true →
                        matchAndRewrite T op g1 = Some (failure, g1)).
  { intros op Hm. apply matchAndRewrite_nested. auto. }
  split_and!; [exact Hclean | exact Hskip |].
  rewrite runOnOperation_cases, Hdrv.
  - by rewrite walkMapOps_removeLabel_id.
  - intros p op o Hp Ho Hk. apply elem_of_cons in Hp as [-> | Hp].
    + apply Hskip. unfold isMapOp. by rewrite Ho.
    + by apply (Haux p op o).
Qed.

End PassProperties.

(** The pass with the reference collaborators on the sample functions. *)
Lemma runOnOperation_singleMapFunc :
  @runOnOperation refCollaborators 8 singleMapFunc
  = Some (passSucceeded, rewrittenSingleMapFunc).
Proof. vm_compute. reflexivity. Qed.

Lemma runOnOperation_strips_maps_witness :
  (∃ g1,
     greedyLoop maxIterations [@TileMapPattern refCollaborators 8] singleMapFunc
       = Some (success, g1)
     ∧ (∀ op, isMapOp rewrittenSingleMapFunc op = true →
              hasLabel rewrittenSingleMapFunc op kTransformedLabel = false)
     ∧ (∀ op, isMapOp g1 op = true →
              rewrittenSingleMapFunc !! op
              = removeAttr kTransformedLabel <$> g1 !! op)
     ∧ (∀ op, isMapOp g1 op = false → rewrittenSingleMapFunc !! op = g1 !! op)).
Proof.
  exact (proj1 (@runOnOperation_strips_maps refCollaborators 8 singleMapFunc
                  rewrittenSingleMapFunc passSucceeded
                  runOnOperation_singleMapFunc) eq_refl).
Defined.

(** C4 as stated fails.  When the greedy driver does not converge, the pass
    returns with the maps it has tiled still labelled [transformed]; and a
    loop that carries the label keeps it, the walk visiting maps only. *)
Lemma transformed_label_survives_pass :
  (∃ g',
     @runOnOperation regrowingCollaborators 8 singleMapFunc
       = Some (passFailed, g')
     ∧ isMapOp g' 1 = true
     ∧ hasLabel g' 1 kTransformedLabel = true)
  ∧ @runOnOperation refCollaborators 8 markedLoopFunc
    = Some (passSucceeded, markedLoopFunc)
  ∧ kind <$> markedLoopFunc !! 1 = Some ForallOp
  ∧ hasLabel markedLoopFunc 1 kTransformedLabel = true.
Proof.
  split.
  - destruct (@runOnOperation regrowingCollaborators 8 singleMapFunc)
      as [[r g']|] eqn:Hrun; vm_compute in Hrun; [|discriminate].
    injection Hrun as <- <-. eexists. split; [reflexivity|].
    split; vm_compute; reflexivity.
  - split; [vm_compute; reflexivity|]. split_and!; reflexivity.
Qed.

Lemma runOnOperation_not_converged_witness :
  ∃ g',
    greedyLoop maxIterations [@TileMapPattern regrowingCollaborators 8]
      singleMapFunc = Some (failure, g')
    ∧ @runOnOperation regrowingCollaborators 8 singleMapFunc
      = Some (passFailed, g')
    ∧ parentIsLoop g' 1 = true
    ∧ hasLabel g' 4 kPerfectlyTiledLoopLabel = true.
Proof.
  destruct (greedyLoop maxIterations [@TileMapPattern regrowingCollaborators 8]
              singleMapFunc) as [[r g']|] eqn:Hdrv;
    vm_compute in Hdrv; [|discriminate].
  injection Hdrv as <- <-. eexists. split; [reflexivity|]. split.
  - apply (@runOnOperation_not_converged regrowingCollaborators 8).
    vm_compute. reflexivity.
  - split; vm_compute; reflexivity.
Defined.

Lemma second_run_is_noop_witness :
  (∀ op, isMapOp rewrittenSingleMapFunc op = true →
         hasLabel rewrittenSingleMapFunc op kTransformedLabel = false)
  ∧ (∀ op, isMapOp rewrittenSingleMapFunc op = true →
           @matchAndRewrite refCollaborators 8 op rewrittenSingleMapFunc
           = Some (failure, rewrittenSingleMapFunc))
  ∧ @runOnOperation refCollaborators 8 rewrittenSingleMapFunc
    = Some (passSucceeded, rewrittenSingleMapFunc).
Proof.
  apply (@second_run_is_noop refCollaborators 8 singleMapFunc
           rewrittenSingleMapFunc).
  - intros patterns Hno. by apply (greedyLoop_no_match 9).
  - exact runOnOperation_singleMapFunc.
  - apply allMapsNested_sound. vm_compute. reflexivity.
  - intros p op o Hp. inversion Hp.
Defined.


(** ** The scenarios of the design document, with the reference
    collaborators *)

(** Scenario B: the chain collapses into one cluster; the fill and both maps
    end up inside the one loop built for the root, which carries the label
    [perfectly-tiled-loop], and a second run changes nothing. *)
Example scenario_chain :
  ∃ g',
    @runOnOperation refCollaborators 8 chainFunc = Some (passSucceeded, g')
    ∧ parentOp <$> g' !! 1 = Some (Some 6)
    ∧ parentOp <$> g' !! 2 = Some (Some 6)
    ∧ parentOp <$> g' !! 3 = Some (Some 6)
    ∧ kind <$> g' !! 6 = Some ForallOp
    ∧ hasLabel g' 6 kPerfectlyTiledLoopLabel = true
    ∧ constantValue g' <$> (default [] (operands <$> g' !! 6))
      = [Some 1%Z; Some 8%Z]
    ∧ @runOnOperation refCollaborators 8 g' = Some (passSucceeded, g').
Proof.
  destruct (@runOnOperation refCollaborators 8 chainFunc) as [[r g']|] eqn:Hrun;
    vm_compute in Hrun; [|discriminate].
  injection Hrun as <- <-. eexists. split; [reflexivity|].
  split_and!; vm_compute; reflexivity.
Qed.

(** Scenario C: a map that feeds two maps is tiled as its own root, and so is
    each of the two: three loops, one map in each. *)
Example scenario_fan_out :
  ∃ g',
    @runOnOperation refCollaborators 8 fanOutFunc = Some (passSucceeded, g')
    ∧ parentOp <$> g' !! 1 = Some (Some 6)
    ∧ parentOp <$> g' !! 2 = Some (Some 10)
    ∧ parentOp <$> g' !! 3 = Some (Some 14)
    ∧ hasLabel g' 6 kPerfectlyTiledLoopLabel = true
    ∧ hasLabel g' 10 kPerfectlyTiledLoopLabel = true
    ∧ hasLabel g' 14 kPerfectlyTiledLoopLabel = true.
Proof.
  destruct (@runOnOperation refCollaborators 8 fanOutFunc) as [[r g']|] eqn:Hrun;
    vm_compute in Hrun; [|discriminate].
  injection Hrun as <- <-. eexists. split; [reflexivity|].
  split_and!; vm_compute; reflexivity.
Qed.

(** * Further properties of the code *)

(** ** The root finder: entry points of one cluster *)

(** More fuel does not change a result. *)
Lemma findRootMap_loop_mono (g : IR) (f : OpId → bool) (fuel : nat) :
  ∀ fuel' cur root r,
    fuel ≤ fuel' →
    findRootMap_loop fuel g f cur root = Some r →
    findRootMap_loop fuel' g f cur root = Some r.
Proof.
  induction fuel as [|fuel IH]; intros fuel' cur root r Hle H; [done|].
  destruct fuel' as [|fuel']; [lia|].
  cbn [findRootMap_loop] in *.
  destruct (f cur); [|done].
  destruct (getUsers g cur) as [|u [|u' us]]; [done| |done].
  apply IH; [lia | done].
Qed.

(** The result is the root the loop started with, or a node from which the
    loop, started afresh, returns that node again. *)
Lemma findRootMap_loop_fixpoint (g : IR) (f : OpId → bool) (fuel : nat) :
  ∀ cur root r,
    findRootMap_loop fuel g f cur root = Some r →
    r = root ∨ findRootMap_loop fuel g f r r = Some r.
Proof.
  induction fuel as [|fuel IH]; intros cur root r H; [done|].
  cbn [findRootMap_loop] in H.
  destruct (f cur); [|left; congruence].
  destruct (getUsers g cur) as [|u [|u' us]]; [left; congruence| |left; congruence].
  destruct (IH _ _ _ H) as [-> | Hfix].
  - destruct (isMapOp g u); [|by left].
    right. by apply (findRootMap_loop_mono g f fuel (S fuel)); [lia|].
  - right. by apply (findRootMap_loop_mono g f fuel (S fuel)); [lia|].
Qed.

Lemma findRootMap_root (g : IR) (f : OpId → bool) (op r : OpId) :
  findRootMap g f op = Some r → findRootMap g f r = Some r.
Proof.
  unfold findRootMap. intros H.
  destruct (findRootMap_loop_fixpoint _ _ _ _ _ _ H) as [-> | Hfix]; done.
Qed.

(** The root of a cluster is its own root: started on the node it returned,
    [findRootMap] returns that node again.  The node returned is the start
    itself or a map of the function, never a node the walk merely passed. *)
Theorem findRootMap_idempotent (g : IR) (f : OpId → bool) (op r : OpId) :
  findRootMap g f op = Some r →
  findRootMap g f r = Some r ∧ (r = op ∨ isMapOp g r = true).
Proof.
  intros H. split.
  - unfold findRootMap in *.
    destruct (findRootMap_loop_fixpoint _ _ _ _ _ _ H) as [-> | Hfix]; done.
  - unfold findRootMap in H. revert H.
    generalize (S (length g)) as fuel. generalize op at 1 as cur.
    intros cur fuel. revert cur.
    generalize op as root.
    induction fuel as [|fuel IH]; intros root cur H; [done|].
    cbn [findRootMap_loop] in H.
    destruct (f cur); [|left; congruence].
    destruct (getUsers g cur) as [|u [|u' us]];
      [left; congruence| |left; congruence].
    destruct (isMapOp g u) eqn:Hu.
    + destruct (IH _ _ H) as [-> | Hm]; [by right | by right].
    + by apply (IH _ _ H).
Qed.

Lemma findRootMap_idempotent_witness :
  findRootMap chainFunc (@fuseFilterFn refCollaborators chainFunc) 3 = Some 3
  ∧ (3 = 2 ∨ isMapOp chainFunc 3 = true).
Proof.
  apply (findRootMap_idempotent chainFunc
           (@fuseFilterFn refCollaborators chainFunc) 2 3).
  reflexivity.
Defined.

(** Entering a cluster one node later finds the same root: when [op]
    satisfies the predicate and its only user [u] is a map, the root found
    from [op] is the root found from [u]. *)
Theorem findRootMap_shared_root (g : IR) (f : OpId → bool) (op u r : OpId) :
  f op = true →
  getUsers g op = [u] →
  isMapOp g u = true →
  findRootMap g f op = Some r →
  findRootMap g f u = Some r.
Proof.
  unfold findRootMap. cbn [findRootMap_loop]. intros Hf Hus Hu.
  rewrite Hf, Hus, Hu. intros H.
  by apply (findRootMap_loop_mono g f (length g) (S (length g))); [lia|].
Qed.

Lemma findRootMap_shared_root_witness :
  findRootMap chainFunc (@fuseFilterFn refCollaborators chainFunc) 3 = Some 3.
Proof.
  apply (findRootMap_shared_root chainFunc
           (@fuseFilterFn refCollaborators chainFunc) 2 3 3); reflexivity.
Defined.

(** ** The root finder reads kinds and operands only *)

Lemma sameDataFlow_uses (v : OpId) (g g' : IR) :
  sameDataFlow g g' →
  ∀ k, imap (λ i, usesIn v (k + i)) g = imap (λ i, usesIn v (k + i)) g'.
Proof.
  intros H. induction H as [|a b g g' [_ Hops] _ IH]; intros k; [done|].
  cbn [imap]. f_equal.
  - unfold usesIn. by rewrite Hops.
  - transitivity (imap (λ i, usesIn v (S k + i)) g).
    { apply imap_ext. intros i x _. simpl. f_equal. lia. }
    rewrite IH. apply imap_ext. intros i x _. simpl. f_equal. lia.
Qed.

Lemma sameDataFlow_getUsers (g g' : IR) (v : OpId) :
  sameDataFlow g g' → getUsers g v = getUsers g' v.
Proof.
  intros H. unfold getUsers. f_equal.
  exact (sameDataFlow_uses v g g' H 0).
Qed.

Lemma sameDataFlow_isMapOp (g g' : IR) (op : OpId) :
  sameDataFlow g g' → isMapOp g op = isMapOp g' op.
Proof.
  intros H. unfold isMapOp.
  destruct (g !! op) as [a|] eqn:Ha.
  - destruct (Forall2_lookup_l _ _ _ _ _ H Ha) as (b & -> & Hk & _).
    by rewrite Hk.
  - apply lookup_ge_None in Ha. rewrite (Forall2_length _ _ _ H) in Ha.
    apply lookup_ge_None in Ha. by rewrite Ha.
Qed.

(** [findRootMap] depends on the kinds and the operands of the operations
    only: on two functions that differ in attributes (labels) or in nesting
    alone it returns the same root.  The walk thus crosses region
    boundaries. *)
Theorem findRootMap_reads_data_flow_only (g g' : IR) (f : OpId → bool)
    (op : OpId) :
  sameDataFlow g g' →
  findRootMap g f op = findRootMap g' f op.
Proof.
  intros H. unfold findRootMap. rewrite <- (Forall2_length _ _ _ H).
  generalize (S (length g)) as fuel. generalize op at 2 4 as root.
  revert op. intros cur root fuel. revert cur root.
  induction fuel as [|fuel IH]; intros cur root; [done|].
  cbn [findRootMap_loop].
  rewrite <- (sameDataFlow_getUsers g g' cur H).
  destruct (f cur); [|done].
  destruct (getUsers g cur) as [|u [|u' us]]; [done| |done].
  rewrite <- (sameDataFlow_isMapOp g g' u H). apply IH.
Qed.

Lemma findRootMap_reads_data_flow_only_witness :
  findRootMap chainFunc (λ _, true) 2
  = findRootMap (reparent 3 1 (setLabel 3 kTransformedLabel chainFunc))
      (λ _, true) 2.
Proof.
  apply (findRootMap_reads_data_flow_only chainFunc
           (reparent 3 1 (setLabel 3 kTransformedLabel chainFunc))
           (λ _, true) 2).
  repeat constructor.
Defined.

(** ** The pattern and the entry points of a cluster *)

Section ClusterEntry.
Context {C : Collaborators}.

(** A candidate and the root of its cluster are rewritten alike: for a
    candidate [op] that is neither labelled nor directly inside a loop, with
    root [r] not directly inside a loop either, the pattern applied to [op]
    does what the pattern applied to [r] does. *)
Theorem matchAndRewrite_from_root (T : Z) (g : IR) (op r : OpId) :
  hasLabel g op kTransformedLabel = false →
  parentIsLoop g op = false →
  findRootMap g (fuseFilterFn g) op = Some r →
  parentIsLoop g r = false →
  matchAndRewrite T op g = matchAndRewrite T r g.
Proof.
  intros Hl Hp Hroot Hpr.
  pose proof (findRootMap_root _ _ _ _ Hroot) as Hrr.
  unfold matchAndRewrite. rewrite Hl, Hp, Hroot, Hpr, Hrr.
  by destruct (hasLabel g r kTransformedLabel).
Qed.

(** The nesting check is made on the candidate, not on the root.  When the
    walk from a candidate outside any loop ends on a root that sits directly
    inside an [scf.forall] or [scf.for], the pattern goes on to tile that
    root, although the pattern applied to the root itself reports a
    non-match. *)
Theorem matchAndRewrite_root_inside_loop (T : Z) (g : IR) (op root : OpId) :
  hasLabel g op kTransformedLabel = false →
  parentIsLoop g op = false →
  findRootMap g (fuseFilterFn g) op = Some root →
  hasLabel g root kTransformedLabel = false →
  parentIsLoop g root = true →
  matchAndRewrite T root g = Some (failure, g)
  ∧ matchAndRewrite T op g = tileRoot T root g.
Proof.
  intros Hl Hp Hroot Hrl Hrp. split.
  - by apply matchAndRewrite_nested.
  - by apply matchAndRewrite_tileRoot.
Qed.

(** On a function with a topological numbering the pattern returns on every
    candidate, provided each driver returns whenever it is called. *)
Theorem matchAndRewrite_returns (T : Z) (g : IR) (rank : OpId → nat)
    (op : OpId) :
  topological g rank →
  is_Some (g !! op) →
  (∀ root g0, ∃ res g1,
     tileUsingSCFForallOpAndFuseGreedily root (tilingOptions T) fuseFilterFn g0
     = Some (res, g1)) →
  (∀ l g1, ∃ pr g2, peelAllLoops l g1 = Some (pr, g2)) →
  (∀ pr g3, ∃ r g4, tilePeeledOpsToScalars pr fuseFilterFn g3 = Some (r, g4)) →
  ∃ r g', matchAndRewrite T op g = Some (r, g').
Proof.
  intros Htopo Hop Htile Hpeel Hscal.
  unfold matchAndRewrite, notifyMatchFailure, ret.
  destruct (hasLabel g op kTransformedLabel); [eauto|].
  destruct (parentIsLoop g op); [eauto|].
  destruct (findRootMap_loop_chain g rank (fuseFilterFn g) Htopo
              (S (length g)) op op) as (landed & Hr & _); [done | lia |].
  unfold findRootMap. rewrite Hr.
  destruct (hasLabel g _ kTransformedLabel); [eauto|].
  unfold tileRoot, bind, modify, ret.
  destruct (Htile (lastSeenMap g op landed) g) as (res & g1 & ->).
  destruct res as [tl|]; [|eauto].
  destruct (Hpeel (loop tl) g1) as (pr & g2 & ->).
  apply Hscal.
Qed.

End ClusterEntry.

Lemma matchAndRewrite_from_root_witness :
  @matchAndRewrite refCollaborators 8 2 chainFunc
  = @matchAndRewrite refCollaborators 8 3 chainFunc.
Proof.
  apply (@matchAndRewrite_from_root refCollaborators 8 chainFunc 2 3);
    reflexivity.
Defined.

Lemma matchAndRewrite_root_inside_loop_witness :
  @matchAndRewrite refCollaborators 8 3 crossRegionFunc
    = Some (failure, crossRegionFunc)
  ∧ @matchAndRewrite refCollaborators 8 1 crossRegionFunc
    = @tileRoot refCollaborators 8 3 crossRegionFunc.
Proof.
  apply (@matchAndRewrite_root_inside_loop refCollaborators 8 crossRegionFunc
           1 3); reflexivity.
Defined.

(** With the reference drivers, the map inside the loop of [crossRegionFunc]
    is tiled again when the pattern is applied to its producer: it ends up in
    a new loop, itself inside the old one. *)
Example matchAndRewrite_tiles_inside_loop :
  ∃ g',
    @matchAndRewrite refCollaborators 8 1 crossRegionFunc = Some (success, g')
    ∧ parentOp <$> g' !! 3 = Some (Some 6)
    ∧ kind <$> g' !! 6 = Some ForallOp
    ∧ parentOp <$> g' !! 6 = Some (Some 2)
    ∧ kind <$> g' !! 2 = Some ForallOp.
Proof.
  destruct (@matchAndRewrite refCollaborators 8 1 crossRegionFunc)
    as [[r g']|] eqn:Hrun; vm_compute in Hrun; [|discriminate].
  injection Hrun as <- <-. eexists. split; [reflexivity|].
  split_and!; vm_compute; reflexivity.
Qed.

(** ** The reference drivers return *)

Lemma tileSizeComputation_returns (T : Z) (b : OpBuilder) (op : OpId) (g : IR) :
  ∃ tiles g', tileSizeComputation T b op g = Some (tiles, g').
Proof.
  unfold tileSizeComputation, bind, gets, create, ret.
  destruct (replicate (getNumLoops g op) (length g)); eauto.
Qed.

Lemma refTile_returns (T : Z) (filter : IR → OpId → bool) (root : OpId)
    (g : IR) :
  ∃ res g1, refTile root (tilingOptions T) filter g = Some (res, g1).
Proof.
  unfold refTile, bind, gets, modify, ret, create.
  destruct (g !! root) as [[k args a p]|]; [|eauto].
  destruct k as [[|n]| | | | | | | | |]; eauto.
  cbn [tilingOptions tileSizeComputationFunction].
  destruct (tileSizeComputation_returns T {| insertionParent := p |} root g)
    as (tiles & g' & ->).
  eauto.
Qed.

Lemma refPeel_returns (l : OpId) (g : IR) :
  ∃ pr g2, refPeel l g = Some (pr, g2).
Proof.
  unfold refPeel, bind, gets, create, ret. destruct (g !! l); eauto.
Qed.

Lemma refScalarizeLoops_returns (filter : IR → OpId → bool)
    (tails : list OpId) :
  ∀ g, ∃ r g4, refScalarizeLoops tails filter g = Some (r, g4).
Proof.
  induction tails as [|t rest IH]; intros g; cbn [refScalarizeLoops].
  - unfold ret. eauto.
  - unfold bind, gets, modify, ret.
    destruct (bool_decide (is_Some (g !! t))); [apply IH | eauto].
Qed.

Lemma matchAndRewrite_returns_witness :
  ∃ r g', @matchAndRewrite refCollaborators 8 2 chainFunc = Some (r, g').
Proof.
  apply (@matchAndRewrite_returns refCollaborators 8 chainFunc id 2).
  - apply topologicalb_sound. vm_compute. reflexivity.
  - eexists. reflexivity.
  - intros root g0. apply refTile_returns.
  - intros l g1. apply refPeel_returns.
  - intros pr g3. apply refScalarizeLoops_returns.
Defined.

(** ** Who sets the [transformed] label *)

Lemma hasLabel_app_new (g : IR) (o : Operation) (x : OpId) (name : string) :
  attrs o = ∅ → hasLabel (g ++ [o]) x name = hasLabel g x name.
Proof.
  intros Ho. unfold hasLabel.
  destruct (decide (x < length g)) as [Hlt|Hge].
  - by rewrite lookup_app_l.
  - rewrite (lookup_ge_None_2 g x) by lia.
    rewrite lookup_app_r by lia.
    destruct (x - length g) as [|k]; [|done]. simpl.
    rewrite Ho. apply bool_decide_eq_false. rewrite lookup_empty.
    by intros [? ?].
Qed.

Lemma hasLabel_reparent (g : IR) (op p x : OpId) (name : string) :
  hasLabel (reparent op p g) x name = hasLabel g x name.
Proof.
  unfold hasLabel, reparent. destruct (decide (op = x)) as [->|Hne].
  - rewrite list_lookup_alter_eq. by destruct (g !! x).
  - by rewrite list_lookup_alter_ne.
Qed.

Lemma hasLabel_setLabel_ne (g : IR) (op x : OpId) (name name' : string) :
  name ≠ name' →
  hasLabel (setLabel op name' g) x name = hasLabel g x name.
Proof.
  intros Hn. unfold hasLabel, setLabel. destruct (decide (op = x)) as [->|Hne].
  - rewrite list_lookup_alter_eq. destruct (g !! x) as [o|]; [|done]. simpl.
    by rewrite lookup_insert_ne.
  - by rewrite list_lookup_alter_ne.
Qed.

Lemma tileSizeComputation_hasLabel (T : Z) (b : OpBuilder) (op x : OpId)
    (g g' : IR) (tiles : list Value) (name : string) :
  tileSizeComputation T b op g = Some (tiles, g') →
  hasLabel g' x name = hasLabel g x name.
Proof.
  unfold tileSizeComputation, bind, gets, create, ret.
  destruct (replicate (getNumLoops g op) (length g)); intros [= _ <-].
  - by apply hasLabel_app_new.
  - by rewrite !hasLabel_app_new.
Qed.

Lemma unmarkedTile_hasLabel (T : Z) (filter : IR → OpId → bool)
    (root x : OpId) (g g1 : IR) (res : FailureOr GmlStTilingResult)
    (name : string) :
  unmarkedTile root (tilingOptions T) filter g = Some (res, g1) →
  hasLabel g1 x name = hasLabel g x name.
Proof.
  unfold unmarkedTile, bind, gets, modify, ret, create.
  destruct (g !! root) as [[k args a p]|]; [|by intros [= _ <-]].
  destruct k as [[|n]| | | | | | | | |]; try by intros [= _ <-].
  cbn [tilingOptions tileSizeComputationFunction].
  destruct (tileSizeComputation T {| insertionParent := p |} root g)
    as [[tiles g']|] eqn:Ht; [|done].
  intros [= _ <-].
  rewrite hasLabel_reparent, hasLabel_app_new by done.
  exact (tileSizeComputation_hasLabel T _ root x g g' tiles name Ht).
Qed.

Lemma refPeel_hasLabel (l x : OpId) (g g2 : IR) (pr : GmlStPeelingResult)
    (name : string) :
  refPeel l g = Some (pr, g2) → hasLabel g2 x name = hasLabel g x name.
Proof.
  unfold refPeel, bind, gets, create, ret.
  destruct (g !! l); intros [= _ <-]; [|done].
  by apply hasLabel_app_new.
Qed.

Section Marking.
Context {C : Collaborators}.

(** The pattern never sets or removes [transformed] itself: the only label it
    writes is [perfectly-tiled-loop].  If none of the three drivers changes
    which operations carry [transformed], neither does the pattern, whatever
    it reports. *)
Theorem matchAndRewrite_never_marks (T : Z) (g g' : IR) (op : OpId)
    (r : LogicalResult) :
  (∀ root res g0 g1,
     tileUsingSCFForallOpAndFuseGreedily root (tilingOptions T) fuseFilterFn g0
     = Some (res, g1) →
     ∀ x, hasLabel g1 x kTransformedLabel = hasLabel g0 x kTransformedLabel) →
  (∀ l pr g1 g2,
     peelAllLoops l g1 = Some (pr, g2) →
     ∀ x, hasLabel g2 x kTransformedLabel = hasLabel g1 x kTransformedLabel) →
  (∀ pr res g3 g4,
     tilePeeledOpsToScalars pr fuseFilterFn g3 = Some (res, g4) →
     ∀ x, hasLabel g4 x kTransformedLabel = hasLabel g3 x kTransformedLabel) →
  matchAndRewrite T op g = Some (r, g') →
  ∀ x, hasLabel g' x kTransformedLabel = hasLabel g x kTransformedLabel.
Proof.
  intros Htile Hpeel Hscal H x.
  unfold matchAndRewrite, notifyMatchFailure, ret in H.
  destruct (hasLabel g op kTransformedLabel); [by injection H as _ <-|].
  destruct (parentIsLoop g op); [by injection H as _ <-|].
  destruct (findRootMap g (fuseFilterFn g) op) as [root|]; [|done].
  destruct (hasLabel g root kTransformedLabel); [by injection H as _ <-|].
  unfold tileRoot, bind, modify, ret in H.
  destruct (tileUsingSCFForallOpAndFuseGreedily root (tilingOptions T)
              fuseFilterFn g) as [[res g1]|] eqn:Ht; [|done].
  rewrite <- (Htile _ _ _ _ Ht x).
  destruct res as [tl|]; [|by injection H as _ <-].
  destruct (peelAllLoops (loop tl) g1) as [[pr g2]|] eqn:Hp; [|done].
  rewrite <- (Hpeel _ _ _ _ Hp x).
  rewrite (Hscal _ _ _ _ H x).
  by apply hasLabel_setLabel_ne.
Qed.

End Marking.

Lemma matchAndRewrite_never_marks_witness :
  ∃ g',
    @matchAndRewrite unmarkedCollaborators 8 1 singleMapFunc
      = Some (success, g')
    ∧ ∀ x, hasLabel g' x kTransformedLabel
           = hasLabel singleMapFunc x kTransformedLabel.
Proof.
  destruct (@matchAndRewrite unmarkedCollaborators 8 1 singleMapFunc)
    as [[r g']|] eqn:Hrun; [|vm_compute in Hrun; discriminate].
  assert (Hr : r = success).
  { vm_compute in Hrun. by injection Hrun as <- _. }
  subst r. exists g'. split; [reflexivity|].
  apply (@matchAndRewrite_never_marks unmarkedCollaborators 8 singleMapFunc g' 1
           success).
  - intros root res g0 g1 Ht x.
    exact (unmarkedTile_hasLabel 8 (@fuseFilterFn unmarkedCollaborators)
             root x g0 g1 res kTransformedLabel Ht).
  - intros l pr g1 g2 Hp x.
    exact (refPeel_hasLabel l x g1 g2 pr kTransformedLabel Hp).
  - intros pr res g3 g4 [= _ <-] x. reflexivity.
  - exact Hrun.
Defined.

(** ** What the tile-size function adds to the function *)

(** The tile-size function leaves every existing operation as it is and
    appends its constants behind them: one constant (the unit size) for a map
    without loops, which still gets created, and exactly two for every other
    rank.  Every unit entry of the vector is the same value, the first of the
    new constants.  The new operations are index constants without operands
    or attributes, placed at the builder's insertion point. *)
Theorem tileSizeComputation_footprint (T : Z) (b : OpBuilder) (g : IR)
    (op : OpId) (o : Operation) (R : nat) :
  g !! op = Some o →
  kind o = MapOp R →
  ∃ tiles g',
    tileSizeComputation T b op g = Some (tiles, g')
    ∧ (∀ i, i < length g → g' !! i = g !! i)
    ∧ length g' = length g + (if decide (R = 0) then 1 else 2)
    ∧ constantValue g' (length g) = Some 1%Z
    ∧ (∀ i, S i < R → tiles !! i = Some (length g))
    ∧ (∀ i c, length g ≤ i → g' !! i = Some c →
         (∃ z, kind c = ConstantIndexOp z) ∧ operands c = [] ∧ attrs c = ∅
         ∧ parentOp c = insertionParent b).
Proof.
  intros Ho Hk. destruct R as [|n].
  - eexists _, _. split; [by eapply tileSizeComputation_rank0_eq|].
    split_and!.
    + intros i Hi. by rewrite lookup_app_l.
    + rewrite length_app. simpl. lia.
    + unfold constantValue. by rewrite lookup_app_r, Nat.sub_diag.
    + intros i Hi. lia.
    + intros i c Hi Hc. rewrite lookup_app_r in Hc by done.
      destruct (i - length g) as [|k]; [|done].
      injection Hc as <-. simpl. eauto.
  - eexists _, _. split; [by eapply tileSizeComputation_rankS_eq|].
    split_and!.
    + intros i Hi. rewrite <- app_assoc. by rewrite lookup_app_l.
    + rewrite !length_app. simpl. lia.
    + unfold constantValue. rewrite <- app_assoc.
      by rewrite lookup_app_r, Nat.sub_diag.
    + intros i Hi. rewrite lookup_app_l by (rewrite length_replicate; lia).
      apply lookup_replicate_2. lia.
    + intros i c Hi Hc. rewrite <- app_assoc in Hc.
      rewrite lookup_app_r in Hc by done.
      destruct (i - length g) as [|[|k]]; [| |done];
        injection Hc as <-; simpl; eauto.
Qed.

Lemma tileSizeComputation_footprint_witness :
  ∃ tiles g',
    tileSizeComputation 8 {| insertionParent := Some 0 |} 3 chainFunc
      = Some (tiles, g')
    ∧ (∀ i, i < length chainFunc → g' !! i = chainFunc !! i)
    ∧ length g' = length chainFunc + (if decide (2 = 0) then 1 else 2)
    ∧ constantValue g' (length chainFunc) = Some 1%Z
    ∧ (∀ i, S i < 2 → tiles !! i = Some (length chainFunc))
    ∧ (∀ i c, length chainFunc ≤ i → g' !! i = Some c →
         (∃ z, kind c = ConstantIndexOp z) ∧ operands c = [] ∧ attrs c = ∅
         ∧ parentOp c = Some 0).
Proof.
  apply (tileSizeComputation_footprint 8 {| insertionParent := Some 0 |}
           chainFunc 3 (op_ (MapOp 2) [2] (Some 0)) 2); reflexivity.
Defined.

(** ** What the final walk of the pass leaves alone *)

Lemma walkMapOps_removeLabel_length (name : string) (g : IR) :
  length (walkMapOps (λ op, removeLabel op name) g) = length g.
Proof.
  unfold walkMapOps. generalize (seq 0 (length g)) as l. intros l.
  revert g. induction l as [|a l IH]; intros g; [done|].
  cbn [foldl]. rewrite IH.
  destruct (isMapOp g a); [|done].
  unfold removeLabel. by rewrite length_alter.
Qed.

Section PassFrame.
Context {C : Collaborators}.

(** When the pass succeeds, its output differs from what the greedy driver
    left in the [transformed] attribute of the maps only: the number of
    operations, and the kind, the operands and the parent of each, are the
    same, and so is every label of another name on every operation.  In
    particular the loops labelled [perfectly-tiled-loop] are still labelled
    in the output. *)
Theorem runOnOperation_keeps_the_rest (T : Z) (g g' : IR) :
  runOnOperation T g = Some (passSucceeded, g') →
  ∃ g1,
    applyPatternsAndFoldGreedily
      (TileMapPattern T :: populateCollapseForallOpDimensionsPattern) g
      = Some (success, g1)
    ∧ length g' = length g1
    ∧ (∀ op, kind <$> g' !! op = kind <$> g1 !! op
             ∧ operands <$> g' !! op = operands <$> g1 !! op
             ∧ parentOp <$> g' !! op = parentOp <$> g1 !! op)
    ∧ (∀ op name, name ≠ kTransformedLabel →
                  hasLabel g' op name = hasLabel g1 op name)
    ∧ (∀ op, hasLabel g' op kPerfectlyTiledLoopLabel
             = hasLabel g1 op kPerfectlyTiledLoopLabel).
Proof.
  rewrite runOnOperation_cases. intros H.
  destruct (applyPatternsAndFoldGreedily _ g) as [[[|] g1]|]; [|done|done].
  injection H as <-. exists g1. split; [done|].
  assert (Hlab : ∀ op name, name ≠ kTransformedLabel →
            hasLabel (walkMapOps (λ op, removeLabel op kTransformedLabel) g1)
              op name = hasLabel g1 op name).
  { intros op name Hn. unfold hasLabel.
    rewrite walkMapOps_removeLabel_lookup.
    destruct (isMapOp g1 op); [|done].
    destruct (g1 !! op) as [o|]; [|done]. simpl.
    by rewrite lookup_delete_ne. }
  split_and!.
  - apply walkMapOps_removeLabel_length.
  - intros op. rewrite walkMapOps_removeLabel_lookup.
    destruct (isMapOp g1 op); [|done].
    by destruct (g1 !! op).
  - exact Hlab.
  - intros op. by apply Hlab.
Qed.

End PassFrame.

Lemma runOnOperation_keeps_the_rest_witness :
  ∃ g1,
    greedyLoop maxIterations [@TileMapPattern refCollaborators 8] singleMapFunc
      = Some (success, g1)
    ∧ length rewrittenSingleMapFunc = length g1
    ∧ (∀ op, kind <$> rewrittenSingleMapFunc !! op = kind <$> g1 !! op
             ∧ operands <$> rewrittenSingleMapFunc !! op = operands <$> g1 !! op
             ∧ parentOp <$> rewrittenSingleMapFunc !! op
               = parentOp <$> g1 !! op)
    ∧ (∀ op name, name ≠ kTransformedLabel →
                  hasLabel rewrittenSingleMapFunc op name = hasLabel g1 op name)
    ∧ (∀ op, hasLabel rewrittenSingleMapFunc op kPerfectlyTiledLoopLabel
             = hasLabel g1 op kPerfectlyTiledLoopLabel).
Proof.
  exact (@runOnOperation_keeps_the_rest refCollaborators 8 singleMapFunc
           rewrittenSingleMapFunc runOnOperation_singleMapFunc).
Defined.

(** ** Where a cluster ends *)

Section ClusterEnd.
Context {C : Collaborators}.

Lemma fuseFilterFn_map (g : IR) (op : OpId) :
  isMapOp g op = true → fuseFilterFn g op = true.
Proof.
  unfold isMapOp, fuseFilterFn. destruct (g !! op) as [o|]; [|done].
  by destruct (kind o).
Qed.

(** A consumer that the pattern's filter rejects ends the cluster: when the
    only user of a map is an operation that is neither a map, a broadcast, a
    fill nor a degenerate reshape, the map is its own root, whatever comes
    after that user. *)
Theorem findRootMap_stops_at_unfusible_user (g : IR) (op u : OpId) :
  isMapOp g op = true →
  getUsers g op = [u] →
  fuseFilterFn g u = false →
  findRootMap g (fuseFilterFn g) op = Some op.
Proof.
  intros Hm Hus Hu.
  assert (Hnotmap : isMapOp g u = false).
  { destruct (isMapOp g u) eqn:E; [|done].
    apply fuseFilterFn_map in E. congruence. }
  assert (Hlen : 0 < length g).
  { unfold isMapOp in Hm. destruct (g !! op) eqn:Hop; [|done].
    apply lookup_lt_Some in Hop. lia. }
  unfold findRootMap. destruct (length g) as [|n]; [lia|].
  cbn [findRootMap_loop].
  by rewrite (fuseFilterFn_map g op Hm), Hus, Hnotmap, Hu.
Qed.

End ClusterEnd.

Lemma findRootMap_stops_at_unfusible_user_witness :
  findRootMap blockedFunc (@fuseFilterFn refCollaborators blockedFunc) 1
  = Some 1.
Proof.
  apply (@findRootMap_stops_at_unfusible_user refCollaborators blockedFunc 1 2);
    reflexivity.
Defined.

(** * Idempotence of the pass with the reference collaborators *)

(** ** The filter and the walk on functions with the same data flow *)

Lemma fuseFilterFn_ref_kind (g : IR) (op : OpId) :
  @fuseFilterFn refCollaborators g op
  = match g !! op with
    | Some o => fusibleKind (kind o)
    | None => false
    end.
Proof.
  unfold fuseFilterFn. destruct (g !! op) as [o|]; [|done].
  by destruct (kind o).
Qed.

Lemma sameDataFlow_kind (g g' : IR) (op : OpId) :
  sameDataFlow g g' → kind <$> g !! op = kind <$> g' !! op.
Proof.
  intros H. destruct (g !! op) as [a|] eqn:Ha.
  - destruct (Forall2_lookup_l _ _ _ _ _ H Ha) as (b & -> & Hk & _).
    simpl. by rewrite Hk.
  - apply lookup_ge_None in Ha. rewrite (Forall2_length _ _ _ H) in Ha.
    apply lookup_ge_None in Ha. by rewrite Ha.
Qed.

Lemma sameDataFlow_filter (g g' : IR) (op : OpId) :
  sameDataFlow g g' →
  @fuseFilterFn refCollaborators g op = @fuseFilterFn refCollaborators g' op.
Proof.
  intros H. rewrite !fuseFilterFn_ref_kind.
  pose proof (sameDataFlow_kind g g' op H) as Hk.
  destruct (g !! op), (g' !! op); simpl in Hk; try done. by injection Hk as ->.
Qed.

Lemma sameDataFlow_sym (g g' : IR) : sameDataFlow g g' → sameDataFlow g' g.
Proof.
  unfold sameDataFlow. intros H.
  induction H as [|a b g g' [? ?] _ IH]; constructor; [by split | exact IH].
Qed.

Lemma sameDataFlow_lookups (g g' : IR) :
  (∀ i, match g !! i, g' !! i with
        | Some a, Some b => kind a = kind b ∧ operands a = operands b
        | None, None => True
        | _, _ => False
        end) →
  sameDataFlow g g'.
Proof.
  intros H. apply Forall2_same_length_lookup_2.
  - destruct (Nat.lt_trichotomy (length g) (length g')) as [Hlt|[Heq|Hgt]];
      [|done|].
    + specialize (H (length g)).
      rewrite (lookup_ge_None_2 g (length g)) in H by lia.
      destruct (lookup_lt_is_Some_2 g' (length g) Hlt) as [b Hb].
      by rewrite Hb in H.
    + specialize (H (length g')).
      rewrite (lookup_ge_None_2 g' (length g')) in H by lia.
      destruct (lookup_lt_is_Some_2 g (length g') Hgt) as [a Ha].
      by rewrite Ha in H.
  - intros i a b Ha Hb. specialize (H i). by rewrite Ha, Hb in H.
Qed.

Lemma findRootMap_loop_ext (g : IR) (f f' : OpId → bool) :
  (∀ x, f x = f' x) →
  ∀ fuel cur root,
    findRootMap_loop fuel g f cur root = findRootMap_loop fuel g f' cur root.
Proof.
  intros Hf. induction fuel as [|fuel IH]; intros cur root; [done|].
  cbn [findRootMap_loop]. rewrite <- Hf.
  destruct (f cur); [|done].
  destruct (getUsers g cur) as [|u [|u' us]]; [done| |done].
  apply IH.
Qed.

Lemma findRootMap_loop_sameDataFlow (g g' : IR) (f : OpId → bool) :
  sameDataFlow g g' →
  ∀ fuel cur root,
    findRootMap_loop fuel g f cur root = findRootMap_loop fuel g' f cur root.
Proof.
  intros H. induction fuel as [|fuel IH]; intros cur root; [done|].
  cbn [findRootMap_loop].
  rewrite <- (sameDataFlow_getUsers g g' cur H).
  destruct (f cur); [|done].
  destruct (getUsers g cur) as [|u [|u' us]]; [done| |done].
  rewrite <- (sameDataFlow_isMapOp g g' u H). apply IH.
Qed.

Lemma feeds_sameDataFlow (g g' : IR) (x y : OpId) :
  sameDataFlow g g' → feeds g x y → feeds g' x y.
Proof.
  intros H [Hf Hu]. split.
  - by rewrite <- (sameDataFlow_filter g g' x H).
  - by rewrite <- (sameDataFlow_getUsers g g' x H).
Qed.

Lemma path_sameDataFlow (g g' : IR) (rest : list OpId) :
  sameDataFlow g g' → ∀ x r, path g x rest r → path g' x rest r.
Proof.
  intros H. induction rest as [|y rest IH]; intros x r; [done|].
  intros [Hf Hp]. split; [by apply (feeds_sameDataFlow g g')|by apply IH].
Qed.

(** ** Moving operations under a loop *)

Lemma movedInto_refl (l : OpId) (g : IR) : movedInto l g g.
Proof. intros i. by left. Qed.

Lemma movedInto_trans (l : OpId) (g1 g2 g3 : IR) :
  movedInto l g1 g2 → movedInto l g2 g3 → movedInto l g1 g3.
Proof.
  intros H1 H2 i. destruct (H2 i) as [-> | ->]; [apply H1|].
  destruct (H1 i) as [-> | ->]; [by right|].
  right. by destruct (g1 !! i).
Qed.

Lemma movedInto_reparent (l x : OpId) (g : IR) : movedInto l g (reparent x l g).
Proof.
  intros i. unfold reparent. destruct (decide (x = i)) as [->|Hne].
  - right. by rewrite list_lookup_alter_eq.
  - left. by rewrite list_lookup_alter_ne.
Qed.

Lemma movedInto_sameDataFlow (l : OpId) (g g' : IR) :
  movedInto l g g' → sameDataFlow g g'.
Proof.
  intros H. apply sameDataFlow_lookups. intros i.
  destruct (H i) as [-> | ->]; by destruct (g !! i).
Qed.

Lemma movedInto_length (l : OpId) (g g' : IR) :
  movedInto l g g' → length g' = length g.
Proof.
  intros H. symmetry.
  exact (Forall2_length _ _ _ (movedInto_sameDataFlow l g g' H)).
Qed.

Lemma movedInto_nestedIn (l : OpId) (g g' : IR) (x : OpId) :
  movedInto l g g' → nestedIn l g x → nestedIn l g' x.
Proof.
  intros H (o & Ho & Hp). destruct (H x) as [Hx | Hx]; rewrite Ho in Hx.
  - by exists o.
  - exists (reparentOp l o). by split.
Qed.

Lemma movedInto_fuse (l : OpId) (filter : IR → OpId → bool) (fuel : nat) :
  ∀ op g, movedInto l g (fuseProducers fuel filter l op g).
Proof.
  induction fuel as [|fuel IH]; intros op g; [apply movedInto_refl|].
  cbn [fuseProducers]. destruct (g !! op) as [o|]; [|apply movedInto_refl].
  generalize (operands o) as ops. intros ops. revert g.
  induction ops as [|v ops IHops]; intros g; [apply movedInto_refl|].
  cbn [foldl]. eapply movedInto_trans; [|apply IHops].
  destruct (filter g v && bool_decide (getUsers g v = [op]));
    [|apply movedInto_refl].
  eapply movedInto_trans; [apply movedInto_reparent | apply IH].
Qed.

Lemma movedInto_fold (l : OpId) (filter : IR → OpId → bool) (n : nat)
    (op : OpId) (ops : list OpId) :
  ∀ g,
    movedInto l g
      (foldl (λ g' v,
                if filter g' v && bool_decide (getUsers g' v = [op])
                then fuseProducers n filter l v (reparent v l g')
                else g') g ops).
Proof.
  induction ops as [|v ops IHops]; intros g; [apply movedInto_refl|].
  cbn [foldl]. eapply movedInto_trans; [|apply IHops].
  destruct (filter g v && bool_decide (getUsers g v = [op]));
    [|apply movedInto_refl].
  eapply movedInto_trans; [apply movedInto_reparent | apply movedInto_fuse].
Qed.

(** ** Paths of the walk *)

Lemma path_app (g : IR) (l1 l2 : list OpId) :
  ∀ x r, path g x (l1 ++ l2) r ↔ ∃ mid, path g x l1 mid ∧ path g mid l2 r.
Proof.
  induction l1 as [|y l1 IH]; intros x r; simpl.
  - split; [intros H; by exists x | by intros (mid & -> & H)].
  - rewrite IH. split.
    + intros (Hf & mid & H1 & H2). exists mid. by split_and!.
    + intros (mid & (Hf & H1) & H2). split; [done|]. by exists mid.
Qed.

Lemma path_snoc_inv (g : IR) (x r : OpId) (rest : list OpId) :
  path g x rest r → rest ≠ [] →
  ∃ pre v, rest = pre ++ [r] ∧ path g x pre v ∧ feeds g v r.
Proof.
  intros Hp Hne.
  destruct (exists_last Hne) as (pre & z & ->).
  apply path_app in Hp as (v & Hpre & Hf & <-).
  by exists pre, v.
Qed.

Lemma feeds_lookup (g : IR) (x y : OpId) :
  feeds g x y → is_Some (g !! x).
Proof.
  intros [Hf _]. rewrite fuseFilterFn_ref_kind in Hf.
  destruct (g !! x); [eauto | done].
Qed.

Lemma feeds_user (g : IR) (x y : OpId) :
  feeds g x y → ∃ o, g !! y = Some o ∧ x ∈ operands o.
Proof.
  intros [_ Hu]. apply getUsers_elem. rewrite Hu. left.
Qed.

(** The fusion of the reference tiling driver moves under the loop every
    operation from which the walk leads to the root, as far as its fuel
    reaches. *)
Lemma fuse_chain (l : OpId) (fuel : nat) :
  ∀ g x rest op,
    path g x rest op → rest ≠ [] → length rest ≤ fuel →
    nestedIn l (fuseProducers fuel (@fuseFilterFn refCollaborators) l op g) x.
Proof.
  induction fuel as [|fuel IH]; intros g x rest op Hp Hne Hlen.
  { destruct rest; [done | simpl in Hlen; lia]. }
  destruct (path_snoc_inv g x op rest Hp Hne) as (pre & v & -> & Hpre & Hf).
  rewrite length_app in Hlen. simpl in Hlen.
  destruct (feeds_user g v op Hf) as (o & Ho & Hv).
  destruct (list_elem_of_split _ _ Hv) as (o1 & o2 & Hops).
  cbn [fuseProducers]. rewrite Ho, Hops, foldl_app. cbn [foldl].
  eapply movedInto_nestedIn; [apply movedInto_fold|].
  set (ga := foldl _ g o1).
  assert (Hga : movedInto l g ga) by apply movedInto_fold.
  pose proof (movedInto_sameDataFlow l g ga Hga) as Hsame.
  destruct (feeds_sameDataFlow g ga v op Hsame Hf) as [Hfa Hua].
  rewrite Hfa, Hua, bool_decide_eq_true_2 by done.
  cbn [andb].
  destruct pre as [|y pre].
  - simpl in Hpre. subst x.
    eapply movedInto_nestedIn; [apply movedInto_fuse|].
    destruct (feeds_lookup ga v op (conj Hfa Hua)) as [ov Hov].
    exists (reparentOp l ov). split; [|done].
    unfold reparent. by rewrite list_lookup_alter_eq, Hov.
  - apply (IH _ x (y :: pre) v); [|done|lia].
    apply (path_sameDataFlow g); [|done].
    apply (movedInto_sameDataFlow l).
    eapply movedInto_trans; [exact Hga | apply movedInto_reparent].
Qed.

(** ** A walk that returns visits no operation twice *)

Lemma findRootMap_loop_feeds (g : IR) (x y : OpId) (fuel : nat) (root : OpId) :
  feeds g x y →
  findRootMap_loop (S fuel) g (@fuseFilterFn refCollaborators g) x root
  = findRootMap_loop fuel g (@fuseFilterFn refCollaborators g) y
      (if isMapOp g y then y else root).
Proof. intros [Hf Hu]. cbn [findRootMap_loop]. by rewrite Hf, Hu. Qed.

Lemma findRootMap_loop_along (g : IR) (rest : list OpId) :
  ∀ x r fuel root,
    path g x rest r →
    ∃ root',
      findRootMap_loop (length rest + fuel) g
        (@fuseFilterFn refCollaborators g) x root
      = findRootMap_loop fuel g (@fuseFilterFn refCollaborators g) r root'.
Proof.
  induction rest as [|y rest IH]; intros x r fuel root Hp.
  - simpl in Hp. subst. by exists root.
  - destruct Hp as [Hf Hp]. cbn [length Nat.add].
    rewrite (findRootMap_loop_feeds g x y _ root Hf).
    by apply IH.
Qed.

Lemma findRootMap_loop_None_root (g : IR) (f : OpId → bool) (fuel : nat) :
  ∀ cur root root',
    findRootMap_loop fuel g f cur root = None →
    findRootMap_loop fuel g f cur root' = None.
Proof.
  induction fuel as [|fuel IH]; intros cur root root'; [done|].
  cbn [findRootMap_loop].
  destruct (f cur); [|done].
  destruct (getUsers g cur) as [|u [|u' us]]; [done| |done].
  apply IH.
Qed.

Lemma findRootMap_loop_short (g : IR) (rest : list OpId) :
  ∀ x r fuel root,
    path g x rest r → fuel ≤ length rest →
    findRootMap_loop fuel g (@fuseFilterFn refCollaborators g) x root = None.
Proof.
  induction rest as [|y rest IH]; intros x r fuel root Hp Hlen.
  - simpl in Hlen. by replace fuel with 0 by lia.
  - destruct fuel as [|fuel]; [done|]. destruct Hp as [Hf Hp].
    rewrite (findRootMap_loop_feeds g x y _ root Hf).
    apply (IH y r); [done | simpl in Hlen; lia].
Qed.

Lemma cycle_never_returns (g : IR) (x : OpId) (pre : list OpId) :
  path g x pre x → pre ≠ [] →
  ∀ fuel root,
    findRootMap_loop fuel g (@fuseFilterFn refCollaborators g) x root = None.
Proof.
  intros Hp Hne fuel.
  induction fuel as [fuel IH] using lt_wf_ind. intros root.
  destruct (decide (fuel ≤ length pre)) as [Hle|Hgt].
  - by apply (findRootMap_loop_short g pre x x).
  - replace fuel with (length pre + (fuel - length pre)) by lia.
    destruct (findRootMap_loop_along g pre x x (fuel - length pre) root Hp)
      as [root' ->].
    apply IH. destruct pre; [done | simpl; lia].
Qed.

Lemma path_NoDup (g : IR) (rest : list OpId) :
  ∀ x r fuel root res,
    path g x rest r →
    findRootMap_loop fuel g (@fuseFilterFn refCollaborators g) r root
      = Some res →
    NoDup (x :: rest).
Proof.
  induction rest as [|y rest IH]; intros x r fuel root res Hp Hret.
  - apply NoDup_singleton.
  - apply NoDup_cons. split.
    + intros Hin.
      destruct (list_elem_of_split _ _ Hin) as (l1 & l2 & Hsplit).
      assert (Hp' := Hp). rewrite Hsplit in Hp'.
      change (l1 ++ x :: l2) with (l1 ++ [x] ++ l2) in Hp'.
      rewrite app_assoc in Hp'.
      apply path_app in Hp' as (mid & Hcyc & _).
      assert (mid = x) as ->.
      { apply path_app in Hcyc as (m1 & _ & _ & ?). done. }
      destruct (findRootMap_loop_along g (y :: rest) x r fuel root Hp)
        as [root' Heq].
      rewrite (cycle_never_returns g x (l1 ++ [x]) Hcyc) in Heq;
        [|by destruct l1].
      symmetry in Heq.
      apply (findRootMap_loop_None_root _ _ _ _ _ root) in Heq. congruence.
    + destruct Hp as [_ Hp]. by apply (IH y r fuel root res).
Qed.

Lemma path_lt (g : IR) (rest : list OpId) :
  ∀ x r, path g x rest r → rest ≠ [] →
         Forall (λ y, y < length g) (x :: rest).
Proof.
  induction rest as [|y rest IH]; intros x r Hp Hne; [done|].
  destruct Hp as [Hf Hp]. constructor.
  - destruct (feeds_lookup g x y Hf) as [o Ho]. by apply lookup_lt_Some in Ho.
  - destruct rest as [|z rest].
    + constructor; [|constructor].
      destruct (feeds_user g x y Hf) as (o & Ho & _).
      by apply lookup_lt_Some in Ho.
    + by apply (IH y r).
Qed.

(** A walk that returns is shorter than the function is long. *)
Lemma path_length (g : IR) (rest : list OpId) (x r : OpId) (fuel : nat)
    (root res : OpId) :
  path g x rest r → rest ≠ [] →
  findRootMap_loop fuel g (@fuseFilterFn refCollaborators g) r root = Some res →
  length rest < length g.
Proof.
  intros Hp Hne Hret.
  pose proof (path_NoDup g rest x r fuel root res Hp Hret) as Hnd.
  pose proof (path_lt g rest x r Hp Hne) as Hlt.
  assert (Hsub : x :: rest ⊆+ seq 0 (length g)).
  { apply NoDup_submseteq; [done|]. intros z Hz.
    rewrite Forall_forall in Hlt. apply elem_of_seq. specialize (Hlt z Hz). lia. }
  apply submseteq_length in Hsub. rewrite length_seq in Hsub.
  simpl in Hsub. lia.
Qed.

(** ** Extending a function *)

Lemma fusibleKind_map (k : OpKind) : isMapKind k = true → fusibleKind k = true.
Proof. by destruct k. Qed.

Lemma join_imap_nil {A B} (f : nat → A → list B) (l : list A) :
  (∀ i x, l !! i = Some x → f i x = []) → mjoin (imap f l) = [].
Proof.
  revert f. induction l as [|a l IH]; intros f H; [done|].
  cbn [imap]. simpl. rewrite (H 0 a eq_refl). simpl.
  apply IH. intros i x Hi. apply (H (S i) x Hi).
Qed.

Lemma filter_eq_none (v : OpId) (l : list OpId) :
  Forall (λ w, w ≠ v) l → filter (λ x, x = v) l = [].
Proof.
  induction 1 as [|w l Hw _ IH]; [done|].
  rewrite filter_cons, decide_False by done. exact IH.
Qed.

Lemma getUsers_app (g new : IR) (v : OpId) :
  Forall (λ o, Forall (λ w, length g ≤ w) (operands o)) new →
  v < length g →
  getUsers (g ++ new) v = getUsers g v.
Proof.
  intros Hnew Hv. unfold getUsers. rewrite imap_app, join_app.
  rewrite (join_imap_nil _ new); [by rewrite app_nil_r|].
  intros i o Hi. unfold usesIn.
  rewrite Forall_lookup in Hnew. specialize (Hnew i o Hi).
  rewrite Forall_forall in Hnew.
  rewrite filter_eq_none; [done|].
  apply Forall_forall. intros w Hw ->. specialize (Hnew _ Hw). lia.
Qed.

Lemma extends_lookup_old (g g' : IR) (i : OpId) (o : Operation) :
  extends g g' → g !! i = Some o →
  ∃ o', g' !! i = Some o' ∧ kind o = kind o' ∧ operands o = operands o'.
Proof.
  intros (g0 & new & -> & Hsame & _) Ho.
  destruct (Forall2_lookup_l _ _ _ _ _ Hsame Ho) as (b & Hb & Hk & Hops).
  exists b. split; [|done]. by apply lookup_app_l_Some.
Qed.

Lemma extends_lookup_new (g g' : IR) (i : OpId) (o' : Operation) :
  extends g g' → g !! i = None → g' !! i = Some o' →
  fusibleKind (kind o') = false.
Proof.
  intros (g0 & new & -> & Hsame & Hnew) Hnone Ho'.
  apply lookup_ge_None in Hnone.
  rewrite (Forall2_length _ _ _ Hsame) in Hnone.
  rewrite lookup_app_r in Ho' by done.
  rewrite Forall_lookup in Hnew. by destruct (Hnew _ _ Ho').
Qed.

Lemma extends_filter (g g' : IR) (x : OpId) :
  extends g g' →
  @fuseFilterFn refCollaborators g' x = @fuseFilterFn refCollaborators g x.
Proof.
  intros H. rewrite !fuseFilterFn_ref_kind.
  destruct (g !! x) as [o|] eqn:Ho.
  - destruct (extends_lookup_old g g' x o H Ho) as (o' & -> & -> & _). done.
  - destruct (g' !! x) as [o'|] eqn:Ho'; [|done].
    by apply (extends_lookup_new g g' x o' H Ho).
Qed.

Lemma extends_isMapOp (g g' : IR) (x : OpId) :
  extends g g' → isMapOp g' x = isMapOp g x.
Proof.
  intros H. unfold isMapOp.
  destruct (g !! x) as [o|] eqn:Ho.
  - destruct (extends_lookup_old g g' x o H Ho) as (o' & -> & -> & _). done.
  - destruct (g' !! x) as [o'|] eqn:Ho'; [|done].
    pose proof (extends_lookup_new g g' x o' H Ho Ho') as Hk.
    destruct (isMapKind (kind o')) eqn:Hm; [|done].
    apply fusibleKind_map in Hm. congruence.
Qed.

Lemma extends_getUsers (g g' : IR) (x : OpId) :
  extends g g' → x < length g → getUsers g' x = getUsers g x.
Proof.
  intros (g0 & new & -> & Hsame & Hnew) Hx.
  pose proof (Forall2_length _ _ _ Hsame) as Hlen.
  rewrite (sameDataFlow_getUsers g g0 x Hsame).
  apply getUsers_app; [|lia].
  eapply Forall_impl; [exact Hnew|]. intros o [_ Hops].
  eapply Forall_impl; [exact Hops|]. intros w Hw. simpl in Hw. lia.
Qed.

Lemma extends_feeds (g g' : IR) (x y : OpId) :
  extends g g' → feeds g' x y ↔ feeds g x y.
Proof.
  intros H. unfold feeds. rewrite (extends_filter g g' x H).
  split; intros [Hf Hu]; (split; [done|]).
  - rewrite <- (extends_getUsers g g' x H); [done|].
    rewrite fuseFilterFn_ref_kind in Hf.
    destruct (g !! x) eqn:Hx; [|done]. by apply lookup_lt_Some in Hx.
  - rewrite (extends_getUsers g g' x H); [done|].
    rewrite fuseFilterFn_ref_kind in Hf.
    destruct (g !! x) eqn:Hx; [|done]. by apply lookup_lt_Some in Hx.
Qed.

Lemma extends_path (g g' : IR) (rest : list OpId) :
  extends g g' → ∀ x r, path g' x rest r ↔ path g x rest r.
Proof.
  intros H. induction rest as [|y rest IH]; intros x r; [done|].
  simpl. by rewrite (extends_feeds g g' x y H), IH.
Qed.

(** Operation by operation: the old ones keep kind and operands, the new
    ones are not fusible and use new operations only. *)
Lemma extends_lookups (g g' : IR) :
  length g ≤ length g' →
  (∀ i o, g !! i = Some o →
     ∃ o', g' !! i = Some o' ∧ kind o = kind o' ∧ operands o = operands o') →
  (∀ i o', length g ≤ i → g' !! i = Some o' →
     fusibleKind (kind o') = false
     ∧ Forall (λ v, length g ≤ v) (operands o')) →
  extends g g'.
Proof.
  intros Hlen Hold Hnew.
  exists (take (length g) g'), (drop (length g) g').
  split; [by rewrite take_drop|]. split.
  - apply sameDataFlow_lookups. intros i.
    destruct (g !! i) as [o|] eqn:Ho.
    + destruct (Hold i o Ho) as (o' & Ho' & Hk & Hops).
      rewrite lookup_take_lt by (by apply lookup_lt_Some in Ho).
      by rewrite Ho'.
    + apply lookup_ge_None in Ho. by rewrite lookup_take_ge.
  - apply Forall_lookup. intros i o' Ho'.
    rewrite lookup_drop in Ho'. apply (Hnew (length g + i)); [lia | done].
Qed.

(** ** The scalarization of the reference collaborators on an empty loop *)

Lemma scalarizeIn_empty (filter : IR → OpId → bool) (t : OpId) (g : IR) :
  (∀ i o, g !! i = Some o → parentOp o ≠ Some t) →
  scalarizeIn filter t g = g.
Proof.
  intros Hno. unfold scalarizeIn.
  generalize (seq 0 (length g)) as l. intros l.
  induction l as [|i l IH]; [done|].
  cbn [foldl]. destruct (g !! i) as [o|] eqn:Ho; [|exact IH].
  rewrite bool_decide_eq_false_2 by (by apply Hno with i). exact IH.
Qed.

Lemma refTile_tileable (T : Z) (filter : IR → OpId → bool) (s : IR)
    (r : OpId) (n : nat) (args : list Value) (a : gmap string Attribute)
    (p : option OpId) :
  s !! r = Some (mkOp (MapOp (S n)) args a p) →
  refTile r (tilingOptions T) filter s
  = Some (Succeeded {| tiledOps := [r]; loop := length s + 2 |},
          setLabel r kTransformedLabel
            (fuseProducers (length s + 3) filter (length s + 2) r
               (reparent r (length s + 2) (s ++ tiledOpsFor T s n p)))).
Proof.
  intros Hr. unfold refTile, bind, gets, modify, ret, create. rewrite Hr.
  cbn [tilingOptions tileSizeComputationFunction].
  rewrite (tileSizeComputation_rankS_eq T _ s r _ n Hr eq_refl).
  cbn [insertionParent].
  assert (Hlen : length ((s ++ [mkOp (ConstantIndexOp 1) [] ∅ p])
                         ++ [mkOp (ConstantIndexOp T) [] ∅ p]) = length s + 2).
  { rewrite !length_app. simpl. lia. }
  rewrite Hlen.
  assert (Happ : ((s ++ [mkOp (ConstantIndexOp 1) [] ∅ p])
                    ++ [mkOp (ConstantIndexOp T) [] ∅ p])
                   ++ [mkOp ForallOp (replicate n (length s) ++ [S (length s)])
                         ∅ p]
                 = s ++ tiledOpsFor T s n p).
  { unfold tiledOpsFor. by rewrite <- !app_assoc. }
  rewrite Happ.
  assert (Hl3 : length (reparent r (length s + 2) (s ++ tiledOpsFor T s n p))
                = length s + 3).
  { unfold reparent. rewrite length_alter, length_app. simpl. lia. }
  by rewrite Hl3.
Qed.

Lemma setLabel_inv (x : OpId) (name : string) (g : IR) (i : OpId)
    (o' : Operation) :
  setLabel x name g !! i = Some o' →
  ∃ o, g !! i = Some o ∧ kind o' = kind o ∧ operands o' = operands o
       ∧ parentOp o' = parentOp o ∧ (i ≠ x → attrs o' = attrs o).
Proof.
  unfold setLabel. destruct (decide (x = i)) as [->|Hne].
  - rewrite list_lookup_alter_eq. destruct (g !! i) as [o|]; [|done].
    intros [= <-]. exists o. by split_and!.
  - rewrite list_lookup_alter_ne by done. intros Ho. exists o'. by split_and!.
Qed.

Lemma setLabel_fwd (x : OpId) (name : string) (g : IR) (i : OpId)
    (o : Operation) :
  g !! i = Some o →
  ∃ o', setLabel x name g !! i = Some o' ∧ kind o' = kind o
        ∧ operands o' = operands o ∧ parentOp o' = parentOp o
        ∧ (i ≠ x → attrs o' = attrs o).
Proof.
  intros Ho. unfold setLabel. destruct (decide (x = i)) as [->|Hne].
  - rewrite list_lookup_alter_eq, Ho. eexists. by split_and!.
  - rewrite list_lookup_alter_ne by done. exists o. by split_and!.
Qed.

Lemma setLabel_length (x : OpId) (name : string) (g : IR) :
  length (setLabel x name g) = length g.
Proof. unfold setLabel. by rewrite length_alter. Qed.

Lemma movedInto_inv (l : OpId) (g g' : IR) (i : OpId) (o' : Operation) :
  movedInto l g g' → g' !! i = Some o' →
  ∃ o, g !! i = Some o ∧ kind o' = kind o ∧ operands o' = operands o
       ∧ attrs o' = attrs o
       ∧ (parentOp o' = parentOp o ∨ parentOp o' = Some l).
Proof.
  intros H Ho'. destruct (H i) as [Hi | Hi]; rewrite Ho' in Hi.
  - exists o'. split_and!; auto.
  - destruct (g !! i) as [o|]; [|done]. injection Hi as ->.
    exists o. split_and!; auto.
Qed.

Lemma movedInto_fwd (l : OpId) (g g' : IR) (i : OpId) (o : Operation) :
  movedInto l g g' → g !! i = Some o →
  ∃ o', g' !! i = Some o' ∧ kind o' = kind o ∧ operands o' = operands o
        ∧ attrs o' = attrs o
        ∧ (parentOp o' = parentOp o ∨ parentOp o' = Some l).
Proof.
  intros H Ho. destruct (H i) as [Hi | Hi]; rewrite Ho in Hi.
  - exists o. split_and!; auto.
  - exists (reparentOp l o). split_and!; auto.
Qed.

Lemma nestedIn_setLabel (l x y : OpId) (name : string) (g : IR) :
  nestedIn l g y → nestedIn l (setLabel x name g) y.
Proof.
  intros (o & Ho & Hp).
  destruct (setLabel_fwd x name g y o Ho) as (o' & Ho' & _ & _ & Hp' & _).
  exists o'. split; [done | congruence].
Qed.

Lemma nestedIn_app (l y : OpId) (g new : IR) :
  nestedIn l g y → nestedIn l (g ++ new) y.
Proof.
  intros (o & Ho & Hp). exists o. split; [by apply lookup_app_l_Some | done].
Qed.

Lemma sameDataFlow_refl (g : IR) : sameDataFlow g g.
Proof. apply Forall2_same_length_lookup_2; [done|]. intros i a b -> [= ->]. done. Qed.

Section Step.
Context (T : Z) (s : IR) (r : OpId) (n : nat) (args : list Value)
        (a : gmap string Attribute) (p : option OpId).
Hypothesis Hr : s !! r = Some (mkOp (MapOp (S n)) args a p).
Hypothesis Hvalid : validParents s.

Let F := @fuseFilterFn refCollaborators.
Let l := length s + 2.
Let sA := s ++ tiledOpsFor T s n p.
Let s4 := fuseProducers (length s + 3) F l r (reparent r l sA).
Let s5 := setLabel r kTransformedLabel s4.

Lemma step_r_lt : r < length s.
Proof. by apply lookup_lt_Some in Hr. Qed.

Lemma step_p_valid (q : OpId) : p = Some q → q < length s.
Proof. intros ->. by apply (Hvalid r _ q Hr). Qed.

Lemma step_moved : movedInto l sA s4.
Proof.
  eapply movedInto_trans; [apply movedInto_reparent | apply movedInto_fuse].
Qed.

Lemma step_length4 : length s4 = length s + 3.
Proof.
  rewrite (movedInto_length l sA s4 step_moved). unfold sA.
  rewrite length_app. simpl. lia.
Qed.

Lemma step_extends : extends s sA.
Proof.
  exists s, (tiledOpsFor T s n p). split; [done|].
  split; [apply sameDataFlow_refl|].
  unfold tiledOpsFor. repeat constructor.
  apply Forall_app. split.
  - apply Forall_replicate. lia.
  - repeat constructor.
Qed.

Lemma step_new_lookup (i : OpId) (o : Operation) :
  length s ≤ i → sA !! i = Some o →
  fusibleKind (kind o) = false
  ∧ Forall (λ v, length s ≤ v) (operands o)
  ∧ attrs o = ∅ ∧ parentOp o = p.
Proof.
  intros Hi Ho. unfold sA in Ho. rewrite lookup_app_r in Ho by done.
  unfold tiledOpsFor in Ho.
  destruct (i - length s) as [|[|[|k]]]; try done;
    injection Ho as <-; simpl; split_and!; try done.
  apply Forall_app. split; [apply Forall_replicate; lia | repeat constructor].
Qed.

Lemma step_loop_lookup :
  sA !! l = Some (mkOp ForallOp (replicate n (length s) ++ [S (length s)]) ∅ p).
Proof.
  unfold sA, l. rewrite lookup_app_r by lia.
  by replace (length s + 2 - length s) with 2 by lia.
Qed.

Lemma step_lo :
  ∃ lo, s5 !! l = Some lo ∧ kind lo = ForallOp
        ∧ Forall (λ v, length s ≤ v) (operands lo)
        ∧ (parentOp lo = p ∨ parentOp lo = Some l).
Proof.
  destruct (movedInto_fwd l sA s4 l _ step_moved step_loop_lookup)
    as (o4 & Ho4 & Hk & Hops & _ & Hp).
  destruct (setLabel_fwd r kTransformedLabel s4 l o4 Ho4)
    as (o5 & Ho5 & Hk5 & Hops5 & Hp5 & _).
  exists o5. split; [done|]. split; [by rewrite Hk5, Hk|]. split.
  - rewrite Hops5, Hops. simpl.
    apply Forall_app. split; [apply Forall_replicate; lia | repeat constructor].
  - rewrite Hp5. exact Hp.
Qed.


Let tailop : Operation :=
  from_option (λ lo, mkOp ForallOp (operands lo) ∅ (parentOp lo))
              (mkOp ForallOp [] ∅ None) (s5 !! l).
Let s8 := setLabel l kPerfectlyTiledLoopLabel (s5 ++ [tailop]).

Lemma step_tail :
  kind tailop = ForallOp
  ∧ Forall (λ v, length s ≤ v) (operands tailop)
  ∧ (parentOp tailop = p ∨ parentOp tailop = Some l).
Proof.
  destruct step_lo as (lo & Hlo & Hk & Hops & Hp).
  unfold tailop. rewrite Hlo. simpl. by split_and!.
Qed.

Lemma step_length5 : length s5 = length s + 3.
Proof. unfold s5. rewrite setLabel_length. apply step_length4. Qed.

Lemma step_length8 : length s8 = length s + 4.
Proof.
  unfold s8. rewrite setLabel_length, length_app, step_length5. simpl. lia.
Qed.

(** The operations of [s8], read back. *)
Lemma step_inv (i : OpId) (o' : Operation) :
  s8 !! i = Some o' →
  (∃ o, s !! i = Some o ∧ kind o' = kind o ∧ operands o' = operands o
        ∧ (parentOp o' = parentOp o ∨ parentOp o' = Some l)
        ∧ (i ≠ r → attrs o' = attrs o))
  ∨ (length s ≤ i ∧ fusibleKind (kind o') = false
     ∧ Forall (λ v, length s ≤ v) (operands o')
     ∧ (parentOp o' = p ∨ parentOp o' = Some l)).
Proof.
  intros Ho'. unfold s8 in Ho'.
  destruct (setLabel_inv _ _ _ _ _ Ho') as (o7 & Ho7 & Hk7 & Hops7 & Hp7 & Ha7).
  destruct (decide (i < length s5)) as [Hlt|Hge].
  - rewrite lookup_app_l in Ho7 by done. unfold s5 in Ho7.
    destruct (setLabel_inv _ _ _ _ _ Ho7)
      as (o4 & Ho4 & Hk4 & Hops4 & Hp4 & Ha4).
    destruct (movedInto_inv l sA s4 i o4 step_moved Ho4)
      as (oA & HoA & HkA & HopsA & HaA & HpA).
    destruct (decide (i < length s)) as [Hold|Hnew].
    + left. unfold sA in HoA. rewrite lookup_app_l in HoA by done.
      exists oA. split; [done|]. split; [congruence|]. split; [congruence|].
      split; [rewrite Hp7, Hp4; exact HpA|].
      intros Hne. rewrite Ha7, Ha4, HaA; [done | done |]. unfold l. lia.
    + right. destruct (step_new_lookup i oA) as (Hf & Hu & _ & Hp); [lia|done|].
      split; [lia|]. split; [congruence|]. split; [congruence|].
      rewrite Hp7, Hp4, <- Hp. exact HpA.
  - right. rewrite lookup_app_r in Ho7 by lia.
    destruct (i - length s5) as [|k] eqn:Hk; [|done].
    injection Ho7 as <-. destruct step_tail as (Hkt & Hopst & Hpt).
    rewrite step_length5 in Hge.
    split; [lia|]. split; [by rewrite Hk7, Hkt|]. split; [congruence|].
    by rewrite Hp7.
Qed.

(** The operations of [s], read forward. *)
Lemma step_fwd (i : OpId) (o : Operation) :
  s !! i = Some o →
  ∃ o', s8 !! i = Some o' ∧ kind o' = kind o ∧ operands o' = operands o
        ∧ (parentOp o' = parentOp o ∨ parentOp o' = Some l)
        ∧ (i ≠ r → attrs o' = attrs o).
Proof.
  intros Ho. assert (Hi : i < length s) by (by apply lookup_lt_Some in Ho).
  assert (His : is_Some (s8 !! i)).
  { apply lookup_lt_is_Some. rewrite step_length8. lia. }
  destruct His as [o' Ho']. exists o'. split; [done|].
  destruct (step_inv i o' Ho') as [(o0 & Ho0 & H)|(Hge & _)]; [|lia].
  rewrite Ho in Ho0. by injection Ho0 as <-.
Qed.

Lemma step_parents (i q : OpId) (o' : Operation) :
  s8 !! i = Some o' → parentOp o' = Some q → q < length s + 3.
Proof.
  intros Ho' Hq.
  destruct (step_inv i o' Ho') as [(o & Ho & _ & _ & [Hp|Hp] & _)
                                  |(_ & _ & _ & [Hp|Hp])].
  - rewrite Hp in Hq. pose proof (Hvalid i o q Ho Hq). lia.
  - rewrite Hp in Hq. injection Hq as <-. unfold l. lia.
  - rewrite Hp in Hq. pose proof (step_p_valid q Hq). lia.
  - rewrite Hp in Hq. injection Hq as <-. unfold l. lia.
Qed.

Lemma step_nested (x : OpId) : nestedIn l s4 x → nestedIn l s8 x.
Proof.
  intros H. unfold s8, s5.
  by apply nestedIn_setLabel, nestedIn_app, nestedIn_setLabel.
Qed.

Lemma step_root_nested : nestedIn l s8 r.
Proof.
  apply step_nested. unfold s4.
  eapply movedInto_nestedIn; [apply movedInto_fuse|].
  exists (reparentOp l (mkOp (MapOp (S n)) args a p)). split; [|done].
  unfold reparent, sA.
  by rewrite list_lookup_alter_eq, (lookup_app_l_Some _ _ _ _ Hr).
Qed.

Lemma step_chain (x : OpId) (rest : list OpId) :
  path s x rest r → rest ≠ [] → length rest ≤ length s + 3 →
  nestedIn l s8 x.
Proof.
  intros Hp Hne Hlen. apply step_nested. unfold s4.
  apply (fuse_chain l (length s + 3) _ x rest r); [|done|done].
  apply (path_sameDataFlow sA).
  - apply (movedInto_sameDataFlow l), movedInto_reparent.
  - by apply (extends_path s sA rest step_extends).
Qed.

Lemma step_loop_kind : kind <$> s8 !! l = Some ForallOp.
Proof.
  destruct step_lo as (lo & Hlo & Hk & _).
  assert (H7 : (s5 ++ [tailop]) !! l = Some lo) by by apply lookup_app_l_Some.
  destruct (setLabel_fwd l kPerfectlyTiledLoopLabel _ l lo H7)
    as (o' & Ho' & Hk' & _).
  unfold s8. rewrite Ho'. simpl. congruence.
Qed.

Lemma step_tiledFrom : tiledFrom s r s8.
Proof.
  split; [apply step_length8|]. split; [apply step_fwd|]. split.
  { intros i o' Hi Ho'.
    destruct (step_inv i o' Ho') as [(o & Ho & _)|(_ & Hf & Hops & _)].
    - apply lookup_lt_Some in Ho. lia.
    - split; [done|]. split; [done|]. intros q Hq.
      pose proof (step_parents i q o' Ho' Hq). rewrite step_length8. lia. }
  split; [apply step_loop_kind|]. split; [apply step_root_nested|].
  apply step_chain.
Qed.

Lemma step_compute :
  @tileRoot refCollaborators T r s = Some (success, s8).
Proof.
  unfold tileRoot, bind.
  change (@tileUsingSCFForallOpAndFuseGreedily refCollaborators) with refTile.
  rewrite (refTile_tileable T _ s r n args a p Hr).
  change (@peelAllLoops refCollaborators) with refPeel.
  change (@tilePeeledOpsToScalars refCollaborators) with refScalarize.
  cbn [loop]. fold F l sA s4 s5.
  destruct step_lo as (lo & Hlo & _).
  unfold refPeel, bind, gets, create, ret, modify. rewrite Hlo.
  cbn [insertionParent].
  assert (Htail : mkOp ForallOp (operands lo) ∅ (parentOp lo) = tailop).
  { unfold tailop. by rewrite Hlo. }
  rewrite Htail. fold s8.
  unfold refScalarize, refScalarizeLoops, bind, gets, modify, ret.
  cbn [tailLoops].
  rewrite bool_decide_eq_true_2.
  - rewrite scalarizeIn_empty; [done|].
    intros i o Ho Hp. pose proof (step_parents i _ o Ho Hp) as Hlt.
    rewrite step_length5 in Hlt. lia.
  - apply lookup_lt_is_Some. rewrite step_length8, step_length5. lia.
Qed.

End Step.

Lemma tileable_lookup (g : IR) (r : OpId) :
  tileable g r = true →
  ∃ n args a p, g !! r = Some (mkOp (MapOp (S n)) args a p).
Proof.
  unfold tileable. destruct (g !! r) as [[k args a p]|]; [|done].
  destruct k as [[|n]| | | | | | | | |]; try done. eauto.
Qed.

Lemma tileable_isMapOp (g : IR) (r : OpId) :
  tileable g r = true → isMapOp g r = true.
Proof.
  intros H. destruct (tileable_lookup g r H) as (n & args & a & p & Hr).
  unfold isMapOp. by rewrite Hr.
Qed.

(** A root the reference tiling driver can tile: the pattern succeeds. *)
Lemma tileRoot_ref_tileable (T : Z) (s : IR) (r : OpId) :
  tileable s r = true → validParents s →
  ∃ s', @tileRoot refCollaborators T r s = Some (success, s')
        ∧ tiledFrom s r s'.
Proof.
  intros Ht Hv. destruct (tileable_lookup s r Ht) as (n & args & a & p & Hr).
  eexists. split.
  - exact (step_compute T s r n args a p Hr Hv).
  - exact (step_tiledFrom T s r n args a p Hr Hv).
Qed.

(** A root it cannot tile: the pattern fails and nothing is mutated. *)
Lemma tileRoot_ref_untileable (T : Z) (s : IR) (r : OpId) :
  tileable s r = false →
  @tileRoot refCollaborators T r s = Some (failure, s).
Proof.
  intros Ht. unfold tileRoot, bind.
  change (@tileUsingSCFForallOpAndFuseGreedily refCollaborators) with refTile.
  unfold refTile, bind, gets, ret. unfold tileable in Ht.
  destruct (s !! r) as [[k args a p]|]; [|done].
  by destruct k as [[|n]| | | | | | | | |].
Qed.

(** ** The invariant of the rewriting *)

Lemma tiledFrom_extends (s s' : IR) (r : OpId) :
  tiledFrom s r s' → extends s s'.
Proof.
  intros (Hlen & Hold & Hnew & _). apply extends_lookups.
  - lia.
  - intros i o Ho. destruct (Hold i o Ho) as (o' & Ho' & Hk & Hops & _).
    exists o'. by split_and!.
  - intros i o' Hi Ho'. destruct (Hnew i o' Hi Ho') as (Hf & Hops & _). done.
Qed.

Lemma parentIsLoop_nestedIn (g : IR) (l x : OpId) :
  nestedIn l g x → kind <$> g !! l = Some ForallOp → parentIsLoop g x = true.
Proof.
  intros (o & Ho & Hp) Hl. unfold parentIsLoop. rewrite Ho, Hp.
  destruct (g !! l) as [lo|]; [|done]. simpl in Hl. by injection Hl as ->.
Qed.

Lemma tiledFrom_parentIsLoop (s s' : IR) (r x : OpId) :
  tiledFrom s r s' → parentIsLoop s x = true → parentIsLoop s' x = true.
Proof.
  intros (Hlen & Hold & _ & Hl & _) Hx. unfold parentIsLoop in Hx.
  destruct (s !! x) as [o|] eqn:Ho; [|done].
  destruct (parentOp o) as [q|] eqn:Hq; [|done].
  destruct (s !! q) as [qo|] eqn:Hqo; [|done].
  destruct (Hold x o Ho) as (o' & Ho' & _ & _ & [Hp|Hp] & _).
  - destruct (Hold q qo Hqo) as (qo' & Hqo' & Hk & _).
    unfold parentIsLoop. by rewrite Ho', Hp, Hq, Hqo', Hk.
  - apply (parentIsLoop_nestedIn s' (length s + 2)); [|done]. by exists o'.
Qed.

Lemma tiledFrom_hasLabel (s s' : IR) (r x : OpId) (name : string) :
  tiledFrom s r s' → x ≠ r → is_Some (s !! x) →
  hasLabel s' x name = hasLabel s x name.
Proof.
  intros (_ & Hold & _) Hne [o Ho].
  destruct (Hold x o Ho) as (o' & Ho' & _ & _ & _ & Ha).
  unfold hasLabel. by rewrite Ho, Ho', (Ha Hne).
Qed.

Lemma tiledFrom_validParents (s s' : IR) (r : OpId) :
  tiledFrom s r s' → validParents s → validParents s'.
Proof.
  intros (Hlen & Hold & Hnew & _) Hv i o' q Ho' Hq.
  destruct (s !! i) as [o|] eqn:Ho.
  - destruct (Hold i o Ho) as (o1 & Ho1 & _ & _ & [Hp|Hp] & _).
    + rewrite Ho' in Ho1. injection Ho1 as <-. rewrite Hp in Hq.
      pose proof (Hv i o q Ho Hq). lia.
    + rewrite Ho' in Ho1. injection Ho1 as <-. rewrite Hp in Hq.
      injection Hq as <-. lia.
  - apply lookup_ge_None in Ho.
    destruct (Hnew i o' Ho Ho') as (_ & _ & Hp). by apply Hp.
Qed.

Lemma tiledFrom_clustersNested (s s' : IR) (r : OpId) (fuel : nat)
    (root res : OpId) :
  tiledFrom s r s' →
  clustersNested s →
  findRootMap_loop fuel s (@fuseFilterFn refCollaborators s) r root = Some res →
  clustersNested s'.
Proof.
  intros Ht Hcl Hret y (rest & r' & Hp & Hm & Hl).
  pose proof (tiledFrom_extends s s' r Ht) as Hext.
  apply (extends_path s s' rest Hext) in Hp.
  rewrite (extends_isMapOp s s' r' Hext) in Hm.
  pose proof Ht as (Hlen & Hold & Hnew & Hloop & Hroot & Hchain).
  destruct (decide (r' = r)) as [->|Hne].
  - apply (parentIsLoop_nestedIn s' (length s + 2)); [|done].
    destruct rest as [|z rest].
    + simpl in Hp. by subst y.
    + apply (Hchain y (z :: rest)); [done|done|].
      pose proof (path_length s (z :: rest) y r fuel root res Hp) as Hb.
      assert (length (z :: rest) < length s) by (by apply Hb). lia.
  - assert (Hr' : is_Some (s !! r')).
    { unfold isMapOp in Hm. destruct (s !! r'); [eauto|done]. }
    rewrite (tiledFrom_hasLabel s s' r r' _ Ht Hne Hr') in Hl.
    apply (tiledFrom_parentIsLoop s s' r y Ht).
    apply Hcl. exists rest, r'. by split_and!.
Qed.

(** ** The pattern with the reference collaborators *)

Section RefPattern.
Context (T : Z).

Local Abbreviation MAR := (@matchAndRewrite refCollaborators T).

(** The invariant: valid parent pointers, and tiled clusters inside
    loops. *)
Let Inv (s : IR) : Prop := validParents s ∧ clustersNested s.

(** Either the pattern fails and leaves the function alone, or it succeeds
    and keeps the invariant. *)
Lemma matchAndRewrite_ref (s s' : IR) (m : OpId) (res : LogicalResult) :
  Inv s → MAR m s = Some (res, s') →
  (res = failure ∧ s' = s) ∨ (res = success ∧ Inv s').
Proof.
  intros [Hv Hcl]. unfold matchAndRewrite, notifyMatchFailure, ret.
  destruct (hasLabel s m kTransformedLabel); [intros [= <- <-]; by left|].
  destruct (parentIsLoop s m); [intros [= <- <-]; by left|].
  destruct (findRootMap s (fuseFilterFn s) m) as [r|] eqn:Hroot; [|done].
  destruct (hasLabel s r kTransformedLabel); [intros [= <- <-]; by left|].
  destruct (tileable s r) eqn:Ht.
  - destruct (tileRoot_ref_tileable T s r Ht Hv) as (s1 & -> & Htf).
    intros [= <- <-]. right. split; [done|]. split.
    + by apply (tiledFrom_validParents s s1 r).
    + apply (tiledFrom_clustersNested s s1 r (S (length s)) r r Htf Hcl).
      exact (findRootMap_root _ _ _ _ Hroot).
  - rewrite (tileRoot_ref_untileable T s r Ht). intros [= <- <-]. by left.
Qed.

Lemma tryPatterns_ref (s s' : IR) (op : OpId) (b : bool) :
  Inv s →
  tryPatterns [@TileMapPattern refCollaborators T] op s = Some (b, s') →
  Inv s'
  ∧ (b = false → s' = s ∧ (isMapOp s op = true → MAR op s = Some (failure, s))).
Proof.
  intros HI. cbn [tryPatterns]. unfold bind, gets, TileMapPattern.
  cbn [rootKind rewrite_].
  change (match s !! op with
          | Some o => isMapKind (kind o)
          | None => false
          end) with (isMapOp s op).
  destruct (isMapOp s op) eqn:Hm.
  - destruct (MAR op s) as [[res s1]|] eqn:Hrun; [|done].
    destruct (matchAndRewrite_ref s s1 op res HI Hrun) as [[-> ->]|[-> HI1]].
    + unfold ret. intros [= <- <-]. split; [done|]. intros _. by split.
    + unfold ret. intros [= <- <-]. split; [exact HI1 | intros [=]].
  - unfold ret. intros [= <- <-]. split; [done|]. intros _. by split.
Qed.

Lemma sweep_ref (worklist : list OpId) :
  ∀ s s' b,
    Inv s →
    sweep [@TileMapPattern refCollaborators T] worklist s = Some (b, s') →
    Inv s'
    ∧ (b = false →
       s' = s ∧ ∀ op, op ∈ worklist → isMapOp s op = true →
                      MAR op s = Some (failure, s)).
Proof.
  induction worklist as [|op rest IH]; intros s s' b HI.
  - unfold sweep, ret. intros [= <- <-]. split; [done|]. intros _.
    split; [done|]. intros op Hop. by apply elem_of_nil in Hop.
  - cbn [sweep]. unfold bind.
    destruct (tryPatterns _ op s) as [[c s1]|] eqn:Htry; [|done].
    destruct (tryPatterns_ref s s1 op c HI Htry) as [HI1 Hc].
    destruct (sweep _ rest s1) as [[c' s2]|] eqn:Hsw; [|done].
    destruct (IH s1 s2 c' HI1 Hsw) as [HI2 Hc'].
    unfold ret. intros [= <- <-]. split; [done|].
    intros Hb. apply orb_false_elim in Hb as [-> ->].
    destruct (Hc eq_refl) as [-> Hop]. destruct (Hc' eq_refl) as [-> Hrest].
    split; [done|]. intros op' Hin Hm.
    apply elem_of_cons in Hin as [->|Hin]; [by apply Hop | by apply Hrest].
Qed.

(** When the greedy driver converges, the invariant holds and the pattern
    fails on every map without mutating anything. *)
Lemma greedyLoop_ref (n : nat) :
  ∀ s s',
    Inv s →
    greedyLoop n [@TileMapPattern refCollaborators T] s = Some (success, s') →
    Inv s' ∧ ∀ op, isMapOp s' op = true → MAR op s' = Some (failure, s').
Proof.
  induction n as [|n IH]; intros s s' HI; [done|].
  cbn [greedyLoop]. unfold bind, gets.
  destruct (sweep _ (seq 0 (length s)) s) as [[changed s1]|] eqn:Hsw; [|done].
  destruct (sweep_ref _ s s1 changed HI Hsw) as [HI1 Hc].
  destruct changed.
  - by apply IH.
  - unfold ret. intros [= <-]. destruct (Hc eq_refl) as [-> Hall].
    split; [done|]. intros op Hm. apply Hall; [|done].
    apply elem_of_seq. unfold isMapOp in Hm.
    destruct (s !! op) eqn:Hop; [|done]. apply lookup_lt_Some in Hop. lia.
Qed.

End RefPattern.

(** The walk behind a result of the loop. *)
Lemma findRootMap_loop_path (g : IR) (fuel : nat) :
  ∀ cur root res,
    findRootMap_loop fuel g (@fuseFilterFn refCollaborators g) cur root
      = Some res →
    res = root ∨ (∃ rest, path g cur rest res ∧ isMapOp g res = true).
Proof.
  induction fuel as [|fuel IH]; intros cur root res H; [done|].
  cbn [findRootMap_loop] in H.
  destruct (@fuseFilterFn refCollaborators g cur) eqn:Hf; [|left; congruence].
  destruct (getUsers g cur) as [|u [|u' us]] eqn:Hu;
    [left; congruence| |left; congruence].
  destruct (IH _ _ _ H) as [-> | (rest & Hp & Hm)].
  - destruct (isMapOp g u) eqn:Hmu; [|by left].
    right. exists [u]. split; [|done]. by split.
  - right. exists (u :: rest). split; [|done]. by split.
Qed.

(** ** The final walk of the pass *)


Lemma strip_kind (s : IR) (i : OpId) :
  kind <$> strip s !! i = kind <$> s !! i.
Proof.
  rewrite walkMapOps_removeLabel_lookup.
  destruct (isMapOp s i); [|done]. by destruct (s !! i).
Qed.

Lemma strip_parentOp (s : IR) (i : OpId) :
  parentOp <$> strip s !! i = parentOp <$> s !! i.
Proof.
  rewrite walkMapOps_removeLabel_lookup.
  destruct (isMapOp s i); [|done]. by destruct (s !! i).
Qed.

Lemma strip_sameDataFlow (s : IR) : sameDataFlow s (strip s).
Proof.
  apply sameDataFlow_lookups. intros i.
  rewrite walkMapOps_removeLabel_lookup.
  destruct (isMapOp s i); by destruct (s !! i).
Qed.

Lemma parentIsLoop_alt (g : IR) (m : OpId) :
  parentIsLoop g m
  = match parentOp <$> g !! m with
    | Some (Some p) =>
        match kind <$> g !! p with
        | Some k => isLoopKind k
        | None => false
        end
    | _ => false
    end.
Proof.
  unfold parentIsLoop. destruct (g !! m) as [o|]; [|done]. simpl.
  destruct (parentOp o) as [p|]; [|done]. by destruct (g !! p).
Qed.

Lemma strip_parentIsLoop (s : IR) (m : OpId) :
  parentIsLoop (strip s) m = parentIsLoop s m.
Proof.
  rewrite !parentIsLoop_alt, strip_parentOp.
  destruct (parentOp <$> s !! m) as [[p|]|]; [|done|done].
  by rewrite strip_kind.
Qed.

Lemma tileable_alt (g : IR) (r : OpId) :
  tileable g r
  = match kind <$> g !! r with
    | Some (MapOp (S _)) => true
    | _ => false
    end.
Proof. unfold tileable. by destruct (g !! r) as [[k ? ? ?]|]. Qed.

Lemma strip_tileable (s : IR) (r : OpId) :
  tileable (strip s) r = tileable s r.
Proof. by rewrite !tileable_alt, strip_kind. Qed.

Lemma strip_hasLabel_false (s : IR) (x : OpId) (name : string) :
  hasLabel s x name = false → hasLabel (strip s) x name = false.
Proof.
  unfold hasLabel. rewrite walkMapOps_removeLabel_lookup.
  destruct (isMapOp s x); [|done].
  destruct (s !! x) as [o|]; [|done]. simpl.
  intros H. apply bool_decide_eq_false in H. apply bool_decide_eq_false.
  intros [v Hv]. apply H.
  destruct (decide (kTransformedLabel = name)) as [<-|Hne].
  - by rewrite lookup_delete_eq in Hv.
  - rewrite lookup_delete_ne in Hv by done. eauto.
Qed.

Lemma strip_findRootMap (s : IR) (m : OpId) :
  findRootMap (strip s) (@fuseFilterFn refCollaborators (strip s)) m
  = findRootMap s (@fuseFilterFn refCollaborators s) m.
Proof.
  unfold findRootMap. rewrite walkMapOps_removeLabel_length.
  rewrite <- (findRootMap_loop_sameDataFlow s (strip s) _ (strip_sameDataFlow s)).
  apply findRootMap_loop_ext. intros x. symmetry.
  apply sameDataFlow_filter, strip_sameDataFlow.
Qed.

(** Where the pattern is stuck before the walk, it is stuck after it. *)
Lemma stuck_strip (T : Z) (s : IR) :
  validParents s → clustersNested s →
  (∀ op, isMapOp s op = true →
         @matchAndRewrite refCollaborators T op s = Some (failure, s)) →
  ∀ m, isMapOp (strip s) m = true →
       @matchAndRewrite refCollaborators T m (strip s)
       = Some (failure, strip s).
Proof.
  intros Hv Hcl Hstuck m Hm.
  rewrite walkMapOps_removeLabel_isMapOp in Hm.
  destruct (parentIsLoop s m) eqn:Hp.
  { apply matchAndRewrite_nested. by rewrite strip_parentIsLoop. }
  assert (Hl : hasLabel s m kTransformedLabel = false).
  { destruct (hasLabel s m kTransformedLabel) eqn:Hl; [|done].
    rewrite (Hcl m) in Hp; [done|]. exists [], m. by split_and!. }
  specialize (Hstuck m Hm). unfold matchAndRewrite in Hstuck.
  rewrite Hl, Hp in Hstuck.
  destruct (findRootMap s (fuseFilterFn s) m) as [r|] eqn:Hroot; [|done].
  assert (Hrl : hasLabel s r kTransformedLabel = false).
  { destruct (hasLabel s r kTransformedLabel) eqn:Hrl; [|done].
    unfold findRootMap in Hroot.
    destruct (findRootMap_loop_path s _ _ _ _ Hroot) as [->|(rest & Hpath & Hmr)];
      [congruence|].
    rewrite (Hcl m) in Hp; [done|]. exists rest, r. by split_and!. }
  rewrite Hrl in Hstuck.
  assert (Ht : tileable s r = false).
  { destruct (tileable s r) eqn:Ht; [|done].
    destruct (tileRoot_ref_tileable T s r Ht Hv) as (s1 & Hs1 & _).
    rewrite Hs1 in Hstuck. done. }
  rewrite (matchAndRewrite_tileRoot T (strip s) m r).
  - apply tileRoot_ref_untileable. by rewrite strip_tileable.
  - by apply strip_hasLabel_false.
  - by rewrite strip_parentIsLoop.
  - by rewrite strip_findRootMap.
  - by apply strip_hasLabel_false.
Qed.

Lemma noMapMarked_clustersNested (g : IR) : noMapMarked g → clustersNested g.
Proof.
  intros Hno y (rest & r & _ & Hm & Hl). rewrite (Hno r Hm) in Hl. done.
Qed.

Lemma validParentsb_sound (g : IR) : validParentsb g = true → validParents g.
Proof.
  unfold validParentsb. rewrite forallb_forall. intros H op o p Ho Hp.
  assert (Hin : In o g) by (apply list_elem_of_In, list_elem_of_lookup; eauto).
  specialize (H o Hin). rewrite Hp in H. by apply Nat.ltb_lt.
Qed.

Lemma noMapMarkedb_sound (g : IR) : noMapMarkedb g = true → noMapMarked g.
Proof.
  unfold noMapMarkedb. rewrite forallb_forall. intros H op Hm.
  assert (Hin : In op (seq 0 (length g))).
  { apply in_seq. unfold isMapOp in Hm.
    destruct (g !! op) eqn:Hop; [|done].
    apply lookup_lt_Some in Hop. lia. }
  specialize (H op Hin). rewrite Hm in H. simpl in H.
  by apply negb_true_iff.
Qed.



(** A map without loops stays where it is, outside any loop, and the pass is
    idempotent on it all the same. *)
Example runOnOperation_scalarMapFunc :
  @runOnOperation refCollaborators 8 scalarMapFunc
  = Some (passSucceeded, scalarMapFunc).
Proof. vm_compute. reflexivity. Qed.

(** Valid parent pointers are needed.  In [danglingParentFunc] the third map
    names as its parent an operation that the first rewrite creates, the
    remainder loop; the scalarization marks it, the second map is skipped for
    a root already handled, and the second run tiles that root. *)
Example runOnOperation_danglingParentFunc :
  ∃ g1 g2,
    @runOnOperation refCollaborators 8 danglingParentFunc
      = Some (passSucceeded, g1)
    ∧ @runOnOperation refCollaborators 8 g1 = Some (passSucceeded, g2)
    ∧ length g1 = 7 ∧ length g2 = 11.
Proof.
  let r := eval vm_compute in
      (@runOnOperation refCollaborators 8 danglingParentFunc) in
  match r with
  | Some (_, ?g1) =>
      let r2 := eval vm_compute in (@runOnOperation refCollaborators 8 g1) in
      match r2 with Some (_, ?g2) => exists g1, g2 end
  end.
  split; [vm_compute; reflexivity|].
  split; [vm_compute; reflexivity|]. split; reflexivity.
Qed.
